(** * ShowGlobals: duplicate and oversized global variables of a PDB

    A shallow embedding of [tools/win/ShowGlobals/ShowGlobals.cc] and the
    properties of its report: the duplicate groups found by the
    name-then-size scan, their wasted bytes and folding counts, the list of
    large symbols, and the command line of [wmain]. *)

From Stdlib Require Import String Ascii.
From Stdlib Require Import ZArith List Bool Lia Permutation Sorted.
From Equations Require Import Equations.
Import ListNotations.

Local Open Scope Z_scope.

(** ** Machine integers

    [DWORD] is 32 bits unsigned, [ULONGLONG] and [size_t] are 64 bits
    unsigned (the tool is built for 64-bit Windows), [int] is 32 bits signed.
    Values are integers of [Z]; every operation that can leave the range is
    followed by the wrap-around of its type.  For [int] that is the two's
    complement result; the statements about [folding_count] are for symbol
    tables of fewer than 2^31 symbols, where the counter does not overflow. *)

Definition DWORD := Z.
Definition ULONGLONG := Z.
Definition size_t := Z.
Definition int := Z.
Definition HRESULT := Z.

Definition to_DWORD (x : Z) : DWORD := x mod 2 ^ 32.
Definition to_ULONGLONG (x : Z) : ULONGLONG := x mod 2 ^ 64.
Definition to_size_t (x : Z) : size_t := x mod 2 ^ 64.
Definition to_int (x : Z) : int := (x + 2 ^ 31) mod 2 ^ 32 - 2 ^ 31.

Definition S_OK : HRESULT := 0.
Definition FAILED (hr : HRESULT) : bool := hr <? 0.

(** ** Wide strings

    A [std::wstring] is the list of its code units; [c_str] is the
    nul-terminated array that [wcscmp] reads. *)

Definition wchar_t := Z.
Definition wstring := list wchar_t.

Definition c_str (s : wstring) : list wchar_t := s ++ [0].

(** [wcscmp] of the C library, on nul-terminated arrays: the code units are
    compared in order up to the first difference or the terminator. *)
Fixpoint wcscmp (s1 s2 : list wchar_t) : Z :=
  match s1, s2 with
  | c1 :: r1, c2 :: r2 =>
      if c1 =? c2 then (if c1 =? 0 then 0 else wcscmp r1 r2)
      else if c1 <? c2 then -1 else 1
  | _, _ => 0
  end.

(** The code units a [std::wstring] built from a [const wchar_t*] holds: those
    before the first nul. *)
Fixpoint until_nul (s : list wchar_t) : wstring :=
  match s with
  | [] => []
  | c :: r => if c =? 0 then [] else c :: until_nul r
  end.

(** A wide string literal. *)
Definition L (s : string) : wstring :=
  map (fun a => Z.of_N (N_of_ascii a)) (list_ascii_of_string s).

(* Helper function for comparing strings - returns a strcmp/wcscmp compatible
   value. *)
Definition StringCompare (lhs rhs : wstring) : Z :=
  wcscmp (c_str lhs) (c_str rhs).

(** ** Symbol data *)

(* Use this struct to record data about symbols for sorting and analysis. *)
Record SymbolData := mkSymbolData {
  size : ULONGLONG;
  section : DWORD;
  offset : DWORD;
  name : wstring
}.

(** The constructor [SymbolData(size, section, offset, const wchar_t* name)]. *)
Definition SymbolData_ctor (size : ULONGLONG) (section offset : DWORD)
    (name : list wchar_t) : SymbolData :=
  mkSymbolData size section offset (until_nul name).

Definition NameCompare (lhs rhs : SymbolData) : bool :=
  let nameCompare := StringCompare (name lhs) (name rhs) in
  if nameCompare =? 0 then size lhs <? size rhs
  else nameCompare <? 0.

Definition SizeCompare (lhs rhs : SymbolData) : bool :=
  if size lhs =? size rhs then StringCompare (name lhs) (name rhs) <? 0
  else size lhs <? size rhs.

(* Use this struct to store data about repeated globals, for later sorting. *)
Record RepeatData := mkRepeatData {
  repeat_count : ULONGLONG;
  folding_count : int;
  bytes_wasted : ULONGLONG;
  rname : wstring
}.

(** [RepeatData::operator<]. *)
Definition RepeatData_lt (lhs rhs : RepeatData) : bool :=
  bytes_wasted lhs <? bytes_wasted rhs.

(** ** The contract of [std::sort]

    [std::sort] is not stable and the standard leaves the order of equivalent
    elements open.  The development is carried out for every implementation
    that meets the contract: given a comparator that is a strict weak
    ordering, the result is a permutation of the range in which no element
    is less than one before it. *)

Record strict_weak_order {A : Type} (comp : A -> A -> bool) : Prop := {
  swo_irrefl : forall a, comp a a = false;
  swo_trans : forall a b c, comp a b = true -> comp b c = true -> comp a c = true;
  swo_equiv : forall a b c,
      comp a b = false -> comp b a = false ->
      comp b c = false -> comp c b = false ->
      comp a c = false /\ comp c a = false
}.

Definition sorted_by {A : Type} (comp : A -> A -> bool) : list A -> Prop :=
  StronglySorted (fun a b => comp b a = false).

Class StdSort := {
  std_sort : forall {A : Type}, (A -> A -> bool) -> list A -> list A;
  std_sort_perm : forall (A : Type) (comp : A -> A -> bool) (l : list A),
      strict_weak_order comp -> Permutation l (std_sort comp l);
  std_sort_sorted : forall (A : Type) (comp : A -> A -> bool) (l : list A),
      strict_weak_order comp -> sorted_by comp (std_sort comp l)
}.

(** [std::reverse]. *)
Definition std_reverse {A : Type} (l : list A) : list A := rev l.

(** ** The symbol source (DIA)

    What the calls of the DIA SDK return is an input of the tool.  An
    [IDiaSymbol] of the enumeration is the record of what each of its getters
    answers: the [HRESULT] and the value it stores on [S_OK].  [get_type]
    answers with the type symbol it leaves in the [ComPtr], [None] when the
    pointer stays null; a type symbol is what its own [get_length]
    answers. *)

Record IDiaSymbol := {
  get_locationType : HRESULT * DWORD;
  get_type : HRESULT * option (HRESULT * ULONGLONG);
  get_addressSection : HRESULT * DWORD;
  get_addressOffset : HRESULT * DWORD;
  get_name : HRESULT * list wchar_t
}.

(** [LocIsStatic] of the [LocationType] enumeration of cvconst.h. *)
Definition LocIsStatic : DWORD := 1.

(** The value an out parameter holds after the call: the one stored on
    [S_OK], the initial one otherwise. *)
Definition out_value {A : Type} (init : A) (r : HRESULT * A) : A :=
  if fst r =? S_OK then snd r else init.

(** How a function ends: it returns a value, or the process dies on the way
    (a null pointer is dereferenced). *)
Inductive Outcome (A : Type) : Type :=
| Returns (a : A)
| Crashes.

Arguments Returns {A} a.
Arguments Crashes {A}.

(** Lines written to standard output. *)
Inductive Line :=
| Header
| Message (text : string)
| Failure (text : string) (hr : HRESULT)
| RepeatRow (repeat : RepeatData) (filename : wstring)
| Blank
| SymbolRow (s : SymbolData) (filename : wstring).

(** One turn of the enumeration loop: what the turn prints, and the symbol
    pushed on [symbols], if any.  [get_type] is only tested with [FAILED]:
    when it does not fail and leaves no type symbol, [get_length] is called
    through the null pointer. *)
Definition read_symbol (symbol : IDiaSymbol)
  : list Line * Outcome (list SymbolData) :=
  if FAILED (fst (get_locationType symbol)) then ([], Returns [])
  else
    let location_type := out_value 0 (get_locationType symbol) in
    if negb (location_type =? LocIsStatic) then ([], Returns [])
    else if FAILED (fst (get_type symbol))
    then ([Message "Get_type failed."], Returns [])
    else
      match snd (get_type symbol) with
      | None => ([], Crashes)
      | Some get_length =>
          let size := out_value 0 get_length in
          let section :=
            if negb (fst (get_addressSection symbol) =? S_OK) then to_DWORD (-2)
            else snd (get_addressSection symbol) in
          let offset := out_value 0 (get_addressOffset symbol) in
          if fst (get_name symbol) =? S_OK
          then ([], Returns [SymbolData_ctor size section offset (snd (get_name symbol))])
          else ([], Returns [])
      end.

(** The enumeration loop: it goes on to the next symbol unless the turn
    crashed. *)
Fixpoint read_symbols (enum_symbols : list IDiaSymbol)
  : list Line * Outcome (list SymbolData) :=
  match enum_symbols with
  | [] => ([], Returns [])
  | symbol :: rest =>
      match read_symbol symbol with
      | (out1, Crashes) => (out1, Crashes)
      | (out1, Returns syms1) =>
          match read_symbols rest with
          | (out2, Crashes) => (out1 ++ out2, Crashes)
          | (out2, Returns syms2) => (out1 ++ out2, Returns (syms1 ++ syms2))
          end
      end
  end.

(** ** The analysis of [DumpInterestingGlobals] *)

(* How many bytes must be wasted on repeats before being listed. *)
Definition kWastageThreshold : Z := 100.
(* How big must an individual symbol be before being listed. *)
Definition kBigSizeThreshold : Z := 500.

(** The test of the inner [while]: [pScan] has the size and the name of [p]. *)
Definition same_group (p pScan : SymbolData) : bool :=
  (size p =? size pScan) && (StringCompare (name p) (name pScan) =? 0).

(** The inner [while] loop from [pScan] on: the range of elements it steps
    over, [folding_count] at its end, and the range left from where it
    stops. *)
Fixpoint scan (p : SymbolData) (pScan : list SymbolData) (folding_count : int)
  : list SymbolData * int * list SymbolData :=
  match pScan with
  | [] => ([], folding_count, [])
  | s :: rest =>
      if same_group p s then
        let folding_count' :=
          if (offset s =? offset p) && negb (offset p =? 0)
          then to_int (folding_count + 1) else folding_count in
        let '(run, fc, rest') := scan p rest folding_count' in
        (s :: run, fc, rest')
      else ([], folding_count, pScan)
  end.

(** [excess_count] of a group: [repeat_count - folding_count] is computed in
    [size_t], to which the [int] is converted. *)
Definition excess_count (show_folded_constants : bool) (repeat_count : size_t)
    (folding_count : int) : size_t :=
  if show_folded_constants then repeat_count
  else to_size_t (repeat_count - to_size_t folding_count).

(** The body of [if (repeat_count > 1)] and its guard, for a run of
    [run_length = pScan - p] elements that starts at [p]. *)
Definition report_repeat (show_folded_constants : bool) (p : SymbolData)
    (run_length : nat) (folding_count : int) : list RepeatData :=
  let repeat_count := to_size_t (Z.of_nat run_length) in
  if 1 <? repeat_count then
    let repeat_count := to_size_t (repeat_count - 1) in
    let folding_count := to_int (folding_count - 1) in
    let excess_count := excess_count show_folded_constants repeat_count folding_count in
    let bytes_wasted := to_ULONGLONG (excess_count * size p) in
    if kWastageThreshold <? bytes_wasted
    then [mkRepeatData repeat_count folding_count bytes_wasted (name p)]
    else []
  else [].

(** *** The comparison of names *)

Lemma wcscmp_refl (s : list wchar_t) : wcscmp s s = 0.
Proof.
  induction s as [|c r IH]; simpl; [reflexivity|].
  rewrite Z.eqb_refl. destruct (c =? 0); [reflexivity | exact IH].
Qed.

Lemma StringCompare_refl (s : wstring) : StringCompare s s = 0.
Proof. apply wcscmp_refl. Qed.

Lemma same_group_refl (p : SymbolData) : same_group p p = true.
Proof.
  unfold same_group. now rewrite Z.eqb_refl, StringCompare_refl.
Qed.

(** The three parts of what [scan] returns. *)
Definition scan_run (p : SymbolData) (pScan : list SymbolData) : list SymbolData :=
  fst (fst (scan p pScan 0)).
Definition scan_folding (p : SymbolData) (pScan : list SymbolData) : int :=
  snd (fst (scan p pScan 0)).
Definition scan_rest (p : SymbolData) (pScan : list SymbolData) : list SymbolData :=
  snd (scan p pScan 0).

Lemma scan_rest_length (p : SymbolData) (l : list SymbolData) (fc : int) :
  (length (snd (scan p l fc)) <= length l)%nat.
Proof.
  revert fc. induction l as [|s rest IH]; intros fc; simpl; [lia|].
  destruct (same_group p s); simpl; [|lia].
  match goal with |- context [scan p rest ?f] => specialize (IH f);
    destruct (scan p rest f) as [[run fc'] rest'] end.
  simpl in *. lia.
Qed.

Lemma scan_rest_head (p : SymbolData) (tl : list SymbolData) :
  (length (scan_rest p (p :: tl)) < length (p :: tl))%nat.
Proof.
  unfold scan_rest. simpl. rewrite same_group_refl.
  match goal with |- context [scan p tl ?f] =>
    pose proof (scan_rest_length p tl f) as H;
    destruct (scan p tl f) as [[run fc'] rest'] end.
  simpl in *. lia.
Qed.

(** The outer [for] loop of the duplicate scan: [p] runs over the sorted
    symbols, each turn scans the run that starts at [p], reports it, and
    moves [p] to where the scan stopped.  The result is [repeats] in the
    order of the [push_back]s. *)
Equations find_repeats (show_folded_constants : bool) (symbols : list SymbolData)
  : list RepeatData by wf (length symbols) lt :=
find_repeats show [] := [];
find_repeats show (p :: tl) :=
  report_repeat show p (length (scan_run p (p :: tl))) (scan_folding p (p :: tl))
    ++ find_repeats show (scan_rest p (p :: tl)).
Next Obligation. apply scan_rest_head. Qed.

(** The ranges [p, pScan) of the turns of the same loop: the groups the
    sorted symbols are cut into. *)
Equations groups (symbols : list SymbolData) : list (list SymbolData)
  by wf (length symbols) lt :=
groups [] := [];
groups (p :: tl) := scan_run p (p :: tl) :: groups (scan_rest p (p :: tl)).
Next Obligation. apply scan_rest_head. Qed.

(** What a turn of the loop reports for the group it scanned. *)
Definition report_group (show_folded_constants : bool) (g : list SymbolData)
  : list RepeatData :=
  match g with
  | [] => []
  | p :: _ => report_repeat show_folded_constants p (length g) (scan_folding p g)
  end.

(** The loop that prints the largest symbols: the rows printed before the
    [break]. *)
Fixpoint large_rows (symbols : list SymbolData) : list SymbolData :=
  match symbols with
  | [] => []
  | s :: rest => if size s <? kBigSizeThreshold then [] else s :: large_rows rest
  end.

Section Analyzer.

Context {sorter : StdSort}.

(** [repeats] as printed: found on the symbols sorted by name and size,
    then sorted by wasted bytes, worst offenders first. *)
Definition duplicate_groups (show_folded_constants : bool)
    (symbols : list SymbolData) : list RepeatData :=
  let symbols := std_sort NameCompare symbols in
  let repeats := find_repeats show_folded_constants symbols in
  std_reverse (std_sort RepeatData_lt repeats).

(** The symbols printed in the summary of the largest global variables. *)
Definition large_symbols (symbols : list SymbolData) : list SymbolData :=
  let symbols := std_sort NameCompare symbols in
  let symbols := std_sort SizeCompare symbols in
  large_rows (std_reverse symbols).

(** The enumeration of the children of the global scope: the result of
    [findChildren] and, when it succeeds, the symbols of the enumeration. *)
Definition Global := (HRESULT * list IDiaSymbol)%type.

Definition DumpInterestingGlobals (global : Global) (filename : wstring)
    (show_folded_constants : bool) : list Line * Outcome bool :=
  let out := [Header] in
  if FAILED (fst global)
  then (out ++ [Message "ERROR - DumpInterestingGlobals() returned no symbols."],
        Returns false)
  else
    match read_symbols (snd global) with
    | (out_read, Crashes) => (out ++ out_read, Crashes)
    | (out_read, Returns symbols) =>
        let out := out ++ out_read in
        let repeats := duplicate_groups show_folded_constants symbols in
        let out := out ++ map (fun repeat => RepeatRow repeat filename) repeats in
        let out := out ++ [Blank] in
        let out := out ++ map (fun s => SymbolRow s filename) (large_symbols symbols) in
        (out, Returns true)
    end.

End Analyzer.

(** ** [Initialize] and [wmain]

    The COM and DIA calls of the start-up are inputs as well: the [HRESULT]
    of each, and the global scope the session gives for a file. *)

Record Platform := {
  CoInitialize : HRESULT;
  CoCreateInstance : HRESULT;
  loadDataFromPdb : wstring -> HRESULT;
  openSession : HRESULT;
  get_globalScope : HRESULT;
  globalScope : wstring -> Global
}.

Definition Initialize (sys : Platform) (filename : wstring)
  : list Line * option Global :=
  (* Initialize DIA2 *)
  let hr := CoCreateInstance sys in
  if FAILED hr then ([Failure "Failed to initialized DIA2" hr], None)
  else
    (* Open the PDB *)
    let hr := loadDataFromPdb sys filename in
    if FAILED hr then ([Failure "LoadDataFromPdb failed" hr], None)
    else
      let hr := openSession sys in
      if FAILED hr then ([Failure "OpenSession failed" hr], None)
      else
        (* Retrieve a reference to the global scope *)
        let hr := get_globalScope sys in
        if negb (hr =? S_OK) then ([Failure "Get_globalScope failed" hr], None)
        else ([], Some (globalScope sys filename)).

Definition usage : Line :=
  Message "Usage: ShowGlobals file.pdb [--show_folded_constants]".

(** The loop over [argv], from index 0: the flag and the file name it leaves. *)
Fixpoint parse_args (argv : list wstring) (show_folded_constants : bool)
    (filename : option wstring) : bool * option wstring :=
  match argv with
  | [] => (show_folded_constants, filename)
  | arg :: rest =>
      if wcscmp (c_str arg) (c_str (L "--show_folded_constants")) =? 0
      then parse_args rest true filename
      else parse_args rest show_folded_constants (Some arg)
  end.

Section Main.

Context {sorter : StdSort}.

(** [wmain]: what it prints and the exit code, when it gets to return one.
    [argv] holds all [argc] arguments, the program's name first. *)
Definition wmain (sys : Platform) (argv : list wstring) : list Line * Outcome int :=
  let '(show_folded_constants, filename) := parse_args argv false None in
  match filename with
  | None => ([usage], Returns (-1))
  | Some filename =>
      let hr := CoInitialize sys in
      if FAILED hr then ([Failure "CoInitialize failed" hr], Returns 0)
      else
        match Initialize sys filename with
        | (out, None) => (out, Returns (-1))
        | (out, Some global) =>
            match DumpInterestingGlobals global filename show_folded_constants with
            | (out_dump, Crashes) => (out ++ out_dump, Crashes)
            | (out_dump, Returns _) => (out ++ out_dump, Returns 0)
            end
        end
  end.

End Main.

(** ** An implementation of [std::sort]

    Insertion sort, which is what the library's introsort runs on the short
    ranges of the examples below; it shows that the contract can be met. *)

Fixpoint insert {A : Type} (comp : A -> A -> bool) (x : A) (l : list A) : list A :=
  match l with
  | [] => [x]
  | y :: r => if comp x y then x :: l else y :: insert comp x r
  end.

Definition insertion_sort {A : Type} (comp : A -> A -> bool) (l : list A) : list A :=
  fold_left (fun sorted x => insert comp x sorted) l [].

(** ** Properties of the comparison functions *)

Ltac destruct_tests :=
  repeat match goal with
  | |- context [?x =? ?y] => destruct (Z.eqb_spec x y)
  | |- context [?x <? ?y] => destruct (Z.ltb_spec x y)
  | H : context [?x =? ?y] |- _ => destruct (Z.eqb_spec x y)
  | H : context [?x <? ?y] |- _ => destruct (Z.ltb_spec x y)
  end.

Lemma wcscmp_range (s1 s2 : list wchar_t) : -1 <= wcscmp s1 s2 <= 1.
Proof.
  revert s2. induction s1 as [|c1 r1 IH]; intros [|c2 r2]; simpl; try lia.
  specialize (IH r2). destruct_tests; lia.
Qed.

Lemma wcscmp_antisym (s1 s2 : list wchar_t) : wcscmp s2 s1 = - wcscmp s1 s2.
Proof.
  revert s2. induction s1 as [|c1 r1 IH]; intros [|c2 r2]; simpl; try reflexivity.
  specialize (IH r2). destruct_tests; lia.
Qed.

Lemma StringCompare_antisym (a b : wstring) : StringCompare b a = - StringCompare a b.
Proof. apply wcscmp_antisym. Qed.

Lemma StringCompare_trans (a b c : wstring) :
  (StringCompare a b <= 0 -> StringCompare b c <= 0 -> StringCompare a c <= 0) /\
  (StringCompare a b < 0 -> StringCompare b c <= 0 -> StringCompare a c < 0) /\
  (StringCompare a b <= 0 -> StringCompare b c < 0 -> StringCompare a c < 0).
Proof.
  unfold StringCompare, c_str.
  revert b c. induction a as [|x a IH]; intros [|y b] [|z c]; cbn [wcscmp app];
    try specialize (IH b c);
    destruct_tests; lia.
Qed.

(** Names without a nul code unit, as [SymbolData_ctor] builds them, compare
    equal only when they are the same. *)
Definition nul_free (s : wstring) : Prop := Forall (fun c => c <> 0) s.

Lemma until_nul_nul_free (s : list wchar_t) : nul_free (until_nul s).
Proof.
  induction s as [|c r IH]; simpl; [constructor|].
  destruct (Z.eqb_spec c 0); constructor; assumption.
Qed.

Lemma StringCompare_eq (a b : wstring) :
  nul_free a -> nul_free b -> StringCompare a b = 0 -> a = b.
Proof.
  unfold StringCompare, c_str. intros Ha. revert b.
  induction Ha as [|x a Hx Ha IH]; intros b Hb; destruct Hb as [|y b Hy Hb];
    cbn [wcscmp app]; try reflexivity.
  - destruct_tests; try lia.
  - destruct_tests; try lia.
  - destruct_tests; try lia. intros H. f_equal; [assumption|]. now apply IH.
Qed.

Ltac string_facts a b c :=
  pose proof (StringCompare_trans a b c);
  pose proof (StringCompare_trans c b a);
  pose proof (StringCompare_antisym a b);
  pose proof (StringCompare_antisym b c);
  pose proof (StringCompare_antisym a c).

Lemma NameCompare_swo : strict_weak_order NameCompare.
Proof.
  split.
  - intros a. unfold NameCompare. rewrite StringCompare_refl. simpl. apply Z.ltb_irrefl.
  - intros a b c. unfold NameCompare; cbv zeta.
    string_facts (name a) (name b) (name c). destruct_tests; intros; lia.
  - intros a b c. unfold NameCompare; cbv zeta.
    string_facts (name a) (name b) (name c).
    destruct_tests; intros; split; lia.
Qed.

Lemma SizeCompare_swo : strict_weak_order SizeCompare.
Proof.
  split.
  - intros a. unfold SizeCompare. rewrite Z.eqb_refl, StringCompare_refl. reflexivity.
  - intros a b c. unfold SizeCompare.
    string_facts (name a) (name b) (name c). destruct_tests; intros; lia.
  - intros a b c. unfold SizeCompare.
    string_facts (name a) (name b) (name c).
    destruct_tests; intros; split; lia.
Qed.

Lemma RepeatData_lt_swo : strict_weak_order RepeatData_lt.
Proof.
  split; unfold RepeatData_lt.
  - intros a. apply Z.ltb_irrefl.
  - intros a b c. destruct_tests; intros; lia.
  - intros a b c. destruct_tests; intros; split; lia.
Qed.

(** Two symbols are in the same group exactly when [NameCompare] orders
    neither before the other. *)
Lemma same_group_NameCompare (a b : SymbolData) :
  same_group a b = true <-> NameCompare a b = false /\ NameCompare b a = false.
Proof.
  unfold same_group, NameCompare; cbv zeta.
  pose proof (StringCompare_antisym (name a) (name b)).
  rewrite andb_true_iff.
  destruct_tests; intuition (try lia; try discriminate).
Qed.

Lemma same_group_key (a b : SymbolData) :
  nul_free (name a) -> nul_free (name b) ->
  same_group a b = true <-> name a = name b /\ size a = size b.
Proof.
  intros Ha Hb. unfold same_group. rewrite andb_true_iff, !Z.eqb_eq. split.
  - intros [Hs Hn]. split; [now apply StringCompare_eq | assumption].
  - intros [Hn Hs]. rewrite Hn, StringCompare_refl. auto.
Qed.

(** ** Sorted ranges *)

Section Sorted.

Context {A : Type} (comp : A -> A -> bool) (Hswo : strict_weak_order comp).

(** "Not after": the transitive relation the sorted range is ordered by. *)
Lemma swo_not_after_trans (a b c : A) :
  comp b a = false -> comp c b = false -> comp c a = false.
Proof.
  intros Hba Hcb.
  destruct (comp c a) eqn:Hca; [|reflexivity].
  destruct (comp a b) eqn:Hab.
  - rewrite (swo_trans comp Hswo c a b Hca Hab) in Hcb. discriminate.
  - destruct (comp b c) eqn:Hbc.
    + rewrite (swo_trans comp Hswo b c a Hbc Hca) in Hba. discriminate.
    + destruct (swo_equiv comp Hswo a b c Hab Hba Hbc Hcb) as [_ H].
      congruence.
Qed.

Lemma swo_asym (a b : A) : comp a b = true -> comp b a = false.
Proof.
  intros Hab. destruct (comp b a) eqn:Hba; [|reflexivity].
  pose proof (swo_trans comp Hswo a b a Hab Hba) as H.
  rewrite (swo_irrefl comp Hswo) in H. discriminate.
Qed.

Lemma insert_perm (x : A) (l : list A) : Permutation (x :: l) (insert comp x l).
Proof.
  induction l as [|y r IH]; simpl; [reflexivity|].
  destruct (comp x y); [reflexivity|].
  rewrite perm_swap. now constructor.
Qed.

Lemma insert_sorted (x : A) (l : list A) :
  sorted_by comp l -> sorted_by comp (insert comp x l).
Proof.
  unfold sorted_by. induction 1 as [|y r Hr IH Hy]; simpl.
  - repeat constructor.
  - destruct (comp x y) eqn:Hxy.
    + constructor; [now constructor|]. constructor.
      * now apply swo_asym.
      * rewrite Forall_forall in *. intros z Hz.
        apply (swo_not_after_trans x y z); [now apply swo_asym | now apply Hy].
    + constructor; [assumption|].
      rewrite Forall_forall in *. intros z Hz.
      apply (Permutation_in _ (Permutation_sym (insert_perm x r))) in Hz.
      destruct Hz as [<-|Hz]; [assumption | now apply Hy].
Qed.

Lemma insertion_sort_perm (l : list A) : Permutation l (insertion_sort comp l).
Proof.
  unfold insertion_sort.
  enough (forall acc, Permutation (acc ++ l) (fold_left (fun s x => insert comp x s) l acc))
    as H by exact (H []).
  induction l as [|x l IH]; intros acc; simpl.
  - now rewrite app_nil_r.
  - etransitivity; [|apply IH].
    etransitivity; [symmetry; apply Permutation_middle|].
    apply (Permutation_app_tail l (insert_perm x acc)).
Qed.

Lemma insertion_sort_sorted (l : list A) : sorted_by comp (insertion_sort comp l).
Proof.
  unfold insertion_sort.
  enough (forall acc, sorted_by comp acc ->
                      sorted_by comp (fold_left (fun s x => insert comp x s) l acc))
    as H by (apply H; constructor).
  induction l as [|x l IH]; intros acc Hacc; simpl; [assumption|].
  apply IH. now apply insert_sorted.
Qed.

End Sorted.

#[export] Instance insertion_sorter : StdSort := {|
  std_sort := @insertion_sort;
  std_sort_perm := fun A comp l _ => insertion_sort_perm comp l;
  std_sort_sorted := fun A comp l H => insertion_sort_sorted comp H l
|}.

(** The names of the symbols read from the enumeration hold no nul. *)
Lemma read_symbol_nul_free (symbol : IDiaSymbol) (symbols : list SymbolData) :
  snd (read_symbol symbol) = Returns symbols ->
  Forall (fun s => nul_free (name s)) symbols.
Proof.
  unfold read_symbol. cbv zeta.
  repeat match goal with
         | |- context [if ?c then _ else _] => destruct c
         | |- context [match snd (get_type symbol) with _ => _ end] =>
             destruct (snd (get_type symbol))
         end; cbn [snd]; intros H; try discriminate;
    injection H as <-; repeat constructor.
  all: apply until_nul_nul_free.
Qed.

Lemma read_symbols_nul_free (enum_symbols : list IDiaSymbol)
    (symbols : list SymbolData) :
  snd (read_symbols enum_symbols) = Returns symbols ->
  Forall (fun s => nul_free (name s)) symbols.
Proof.
  revert symbols.
  induction enum_symbols as [|symbol rest IH]; intros symbols; cbn [read_symbols].
  - cbn. intros H. injection H as <-. constructor.
  - pose proof (read_symbol_nul_free symbol) as H1.
    destruct (read_symbol symbol) as [out1 [syms1|]]; [|discriminate].
    destruct (read_symbols rest) as [out2 [syms2|]]; [|discriminate].
    cbn [snd] in *. intros H. injection H as <-.
    rewrite Forall_app. split; [now apply H1 | now apply IH].
Qed.

(** ** The scan of a group *)

(** An instance that counts as folded with [p]: same offset, and not zero. *)
Definition offset_match (p s : SymbolData) : bool :=
  (offset s =? offset p) && negb (offset p =? 0).

Ltac destruct_scan p l :=
  match goal with
  | |- context [scan p l ?f] => destruct (scan p l f) as [[?run ?fc] ?rest] eqn:?Hscan
  end.

Lemma scan_split (p : SymbolData) (l : list SymbolData) (fc : int) :
  fst (fst (scan p l fc)) ++ snd (scan p l fc) = l.
Proof.
  revert fc. induction l as [|s l IH]; intros fc; cbn [scan]; [reflexivity|].
  destruct (same_group p s); [|reflexivity].
  match goal with |- context [scan p l ?f] => specialize (IH f) end.
  destruct_scan p l. cbn in *. now f_equal.
Qed.

Lemma scan_run_same_group (p : SymbolData) (l : list SymbolData) (fc : int) :
  Forall (fun s => same_group p s = true) (fst (fst (scan p l fc))).
Proof.
  revert fc. induction l as [|s l IH]; intros fc; cbn [scan]; [constructor|].
  destruct (same_group p s) eqn:Hs; [|constructor].
  match goal with |- context [scan p l ?f] => specialize (IH f) end.
  destruct_scan p l. cbn in *. now constructor.
Qed.

Lemma scan_rest_stops (p : SymbolData) (l : list SymbolData) (fc : int) :
  match snd (scan p l fc) with
  | [] => True
  | s :: _ => same_group p s = false
  end.
Proof.
  revert fc. induction l as [|s l IH]; intros fc; cbn [scan]; [exact I|].
  destruct (same_group p s) eqn:Hs; [|exact Hs].
  match goal with |- context [scan p l ?f] => specialize (IH f) end.
  destruct_scan p l. exact IH.
Qed.

(** Scanning the group alone gives the same group and the same count. *)
Lemma scan_alone (p : SymbolData) (l : list SymbolData) (fc : int) :
  scan p (fst (fst (scan p l fc))) fc = (fst (scan p l fc), []).
Proof.
  revert fc. induction l as [|s l IH]; intros fc; cbn [scan]; [reflexivity|].
  destruct (same_group p s) eqn:Hs; [|reflexivity].
  match goal with |- context [scan p l ?f] => specialize (IH f) end.
  destruct_scan p l. cbn [fst snd] in *. cbn [scan]. rewrite Hs, IH. reflexivity.
Qed.

Lemma scan_folding_count (p : SymbolData) (l : list SymbolData) (fc : int) :
  0 <= fc -> fc + Z.of_nat (length l) < 2 ^ 31 ->
  snd (fst (scan p l fc))
  = fc + Z.of_nat (length (filter (offset_match p) (fst (fst (scan p l fc))))).
Proof.
  revert fc. induction l as [|s l IH]; intros fc Hfc Hlen; cbn [scan].
  - cbn. lia.
  - destruct (same_group p s) eqn:Hs; [|cbn; lia].
    cbn [length] in Hlen.
    match goal with |- context [scan p l ?f] => specialize (IH f) end.
    destruct_scan p l. cbn [fst snd filter] in *.
    fold (offset_match p s) in *.
    assert (Hle : (length (filter (offset_match p) run) <= length run)%nat)
      by apply filter_length_le.
    destruct (offset_match p s); cbn [length].
    + unfold to_int in *. rewrite Z.mod_small in IH by lia.
      rewrite IH by lia. lia.
    + rewrite IH by lia. reflexivity.
Qed.

Lemma scan_run_head (p : SymbolData) (tl : list SymbolData) :
  exists run, scan_run p (p :: tl) = p :: run.
Proof.
  unfold scan_run. cbn [scan]. rewrite same_group_refl.
  destruct_scan p tl. now exists run.
Qed.

(** ** The groups of the scan *)

Lemma scan_run_rest (p : SymbolData) (l : list SymbolData) :
  scan_run p l ++ scan_rest p l = l.
Proof. apply scan_split. Qed.

Lemma scan_folding_alone (p : SymbolData) (l : list SymbolData) :
  scan_folding p (scan_run p l) = scan_folding p l.
Proof.
  unfold scan_folding, scan_run. now rewrite scan_alone.
Qed.

(** The loop reports group by group. *)
Lemma find_repeats_groups (show : bool) (symbols : list SymbolData) :
  find_repeats show symbols = flat_map (report_group show) (groups symbols).
Proof.
  funelim (groups symbols); simp find_repeats; [reflexivity|].
  cbn [flat_map]. rewrite <- H. f_equal.
  destruct (scan_run_head p tl) as [run Hrun].
  unfold report_group. rewrite Hrun, <- Hrun.
  now rewrite scan_folding_alone.
Qed.

(** The groups cut the range: put end to end they are the symbols again. *)
Lemma groups_concat (symbols : list SymbolData) : concat (groups symbols) = symbols.
Proof.
  funelim (groups symbols); [reflexivity|].
  cbn [concat]. rewrite H. apply scan_run_rest.
Qed.

(** A group starts with its first symbol [p] and holds symbols of the size
    and name of [p] only. *)
Lemma groups_same_group (symbols g : list SymbolData) :
  In g (groups symbols) ->
  exists p tl, g = p :: tl /\ Forall (fun s => same_group p s = true) g.
Proof.
  funelim (groups symbols); [intros []|].
  intros [<-|Hin]; [|now apply H].
  destruct (scan_run_head p tl) as [run Hrun].
  exists p, run. split; [assumption|]. apply scan_run_same_group.
Qed.

Lemma same_group_sym (a b : SymbolData) : same_group a b = same_group b a.
Proof.
  unfold same_group. rewrite (Z.eqb_sym (size a)), (StringCompare_antisym (name b)).
  f_equal. destruct_tests; lia.
Qed.

Lemma same_group_trans (a b c : SymbolData) :
  same_group a b = true -> same_group b c = true -> same_group a c = true.
Proof.
  rewrite !same_group_NameCompare. intros [H1 H2] [H3 H4].
  apply (swo_equiv NameCompare NameCompare_swo a b c); assumption.
Qed.

(** Symbols of a group of a range sorted by [NameCompare] come before those
    of every later group. *)
Definition group_before (g1 g2 : list SymbolData) : Prop :=
  forall a b, In a g1 -> In b g2 -> NameCompare a b = true.

Lemma StronglySorted_app_inv {A : Type} (R : A -> A -> Prop) (l1 l2 : list A) :
  StronglySorted R (l1 ++ l2) ->
  StronglySorted R l1 /\ StronglySorted R l2 /\
  (forall a b, In a l1 -> In b l2 -> R a b).
Proof.
  induction l1 as [|x l1 IH]; cbn [app]; intros H.
  - repeat split; [constructor | assumption | intros a b []].
  - inversion H as [|? ? Hs Hx]; subst. destruct (IH Hs) as (H1 & H2 & H3).
    rewrite Forall_app in Hx. destruct Hx as [Hx1 Hx2].
    repeat split; [now constructor | assumption |].
    intros a b [<-|Ha] Hb; [|now apply H3].
    rewrite Forall_forall in Hx2. now apply Hx2.
Qed.

Lemma sorted_by_app_inv {A : Type} (comp : A -> A -> bool) (l1 l2 : list A) :
  sorted_by comp (l1 ++ l2) ->
  sorted_by comp l1 /\ sorted_by comp l2 /\
  (forall a b, In a l1 -> In b l2 -> comp b a = false).
Proof. apply StronglySorted_app_inv. Qed.

Lemma sorted_scan_rest (p : SymbolData) (tl : list SymbolData) :
  sorted_by NameCompare (p :: tl) ->
  Forall (fun s => NameCompare p s = true) (scan_rest p (p :: tl)).
Proof.
  intros Hsorted.
  pose proof (scan_run_rest p (p :: tl)) as Hsplit.
  pose proof (scan_rest_stops p (p :: tl) 0) as Hstop. fold (scan_rest p (p :: tl)) in Hstop.
  destruct (scan_run_head p tl) as [run Hrun].
  rewrite <- Hsplit in Hsorted.
  apply sorted_by_app_inv in Hsorted. destruct Hsorted as (_ & Hrest & Hcross).
  destruct (scan_rest p (p :: tl)) as [|s0 rest]; [constructor|].
  assert (Hp0 : NameCompare p s0 = true).
  { destruct (NameCompare p s0) eqn:E; [reflexivity|].
    assert (same_group p s0 = true) as Hs; [|congruence].
    apply same_group_NameCompare. split; [assumption|].
    apply Hcross; [rewrite Hrun; now left | now left]. }
  constructor; [assumption|].
  inversion Hrest as [|? ? _ Hs0]; subst.
  rewrite Forall_forall in *. intros s Hs. specialize (Hs0 s Hs).
  destruct (NameCompare p s) eqn:E; [reflexivity|].
  rewrite (swo_not_after_trans NameCompare NameCompare_swo s0 s p Hs0 E) in Hp0.
  discriminate.
Qed.

Lemma groups_sorted (symbols : list SymbolData) :
  sorted_by NameCompare symbols -> StronglySorted group_before (groups symbols).
Proof.
  funelim (groups symbols); intros Hsorted; [constructor|].
  pose proof (sorted_scan_rest p tl Hsorted) as Hafter.
  pose proof (scan_run_rest p (p :: tl)) as Hsplit.
  assert (Hrest : sorted_by NameCompare (scan_rest p (p :: tl))).
  { rewrite <- Hsplit in Hsorted. now apply sorted_by_app_inv in Hsorted. }
  constructor; [now apply H|].
  rewrite Forall_forall. intros g Hg a b Ha Hb.
  assert (Hb' : In b (scan_rest p (p :: tl))).
  { rewrite <- (groups_concat (scan_rest p (p :: tl))). apply in_concat. eauto. }
  rewrite Forall_forall in Hafter. specialize (Hafter b Hb').
  pose proof (scan_run_same_group p (p :: tl) 0) as Hrun.
  rewrite Forall_forall in Hrun. specialize (Hrun a Ha).
  apply same_group_NameCompare in Hrun. destruct Hrun as [Hpa Hap].
  destruct (NameCompare a b) eqn:E; [reflexivity|].
  rewrite (swo_not_after_trans NameCompare NameCompare_swo b a p E Hpa) in Hafter.
  discriminate.
Qed.

(** ** Sorting and reversing *)

Lemma StronglySorted_app {A : Type} (R : A -> A -> Prop) (l1 l2 : list A) :
  StronglySorted R l1 -> StronglySorted R l2 ->
  (forall a b, In a l1 -> In b l2 -> R a b) ->
  StronglySorted R (l1 ++ l2).
Proof.
  induction 1 as [|x l1 Hs IH Hx]; cbn [app]; intros H2 Hcross; [assumption|].
  constructor.
  - apply IH; [assumption|]. intros a b Ha Hb. apply Hcross; [now right | assumption].
  - rewrite Forall_app. split; [assumption|].
    rewrite Forall_forall. intros b Hb. apply Hcross; [now left | assumption].
Qed.

Lemma StronglySorted_rev {A : Type} (R : A -> A -> Prop) (l : list A) :
  StronglySorted R l -> StronglySorted (fun a b => R b a) (rev l).
Proof.
  induction 1 as [|x l Hs IH Hx]; cbn [rev]; [constructor|].
  apply StronglySorted_app; [assumption | repeat constructor |].
  intros a b Ha [<-|[]]. rewrite Forall_forall in Hx. apply Hx. now apply in_rev.
Qed.

Lemma StronglySorted_weaken {A : Type} (R Q : A -> A -> Prop) (l : list A) :
  (forall a b, R a b -> Q a b) -> StronglySorted R l -> StronglySorted Q l.
Proof.
  intros HRQ. induction 1 as [|x l Hs IH Hx]; constructor; [assumption|].
  eapply Forall_impl; [|exact Hx]. intros b. apply HRQ.
Qed.

Section SortFacts.

Context {sorter : StdSort}.

Lemma std_sort_nil {A : Type} (comp : A -> A -> bool) :
  strict_weak_order comp -> std_sort comp [] = [].
Proof.
  intros H. apply Permutation_nil, (std_sort_perm _ comp [] H).
Qed.

Lemma std_sort_singleton {A : Type} (comp : A -> A -> bool) (x : A) :
  strict_weak_order comp -> std_sort comp [x] = [x].
Proof.
  intros H. apply Permutation_length_1_inv, (std_sort_perm _ comp [x] H).
Qed.

Lemma std_sort_length {A : Type} (comp : A -> A -> bool) (l : list A) :
  strict_weak_order comp -> length (std_sort comp l) = length l.
Proof.
  intros H. symmetry. apply Permutation_length, (std_sort_perm _ comp l H).
Qed.

(** The printed groups are those the loop found, reordered. *)
Lemma duplicate_groups_perm (show : bool) (symbols : list SymbolData) :
  Permutation (find_repeats show (std_sort NameCompare symbols))
              (duplicate_groups show symbols).
Proof.
  unfold duplicate_groups, std_reverse.
  rewrite <- Permutation_rev. apply std_sort_perm, RepeatData_lt_swo.
Qed.

Lemma duplicate_groups_sorted (show : bool) (symbols : list SymbolData) :
  StronglySorted (fun a b => RepeatData_lt a b = false) (duplicate_groups show symbols).
Proof.
  unfold duplicate_groups, std_reverse.
  apply (StronglySorted_rev (fun a b => RepeatData_lt b a = false)).
  apply std_sort_sorted, RepeatData_lt_swo.
Qed.

(** The symbols as the size report walks them: a reordering of the input,
    no symbol before a [SizeCompare]-greater one. *)
Definition by_size (symbols : list SymbolData) : list SymbolData :=
  std_reverse (std_sort SizeCompare (std_sort NameCompare symbols)).

Lemma by_size_perm (symbols : list SymbolData) : Permutation symbols (by_size symbols).
Proof.
  unfold by_size, std_reverse. rewrite <- Permutation_rev.
  rewrite <- (std_sort_perm _ SizeCompare _ SizeCompare_swo).
  apply std_sort_perm, NameCompare_swo.
Qed.

Lemma by_size_sorted (symbols : list SymbolData) :
  StronglySorted (fun a b => SizeCompare a b = false) (by_size symbols).
Proof.
  unfold by_size, std_reverse.
  apply (StronglySorted_rev (fun a b => SizeCompare b a = false)).
  apply std_sort_sorted, SizeCompare_swo.
Qed.

End SortFacts.

(** ** The report of a group *)

Lemma report_repeat_above (show : bool) (p : SymbolData) (n : nat) (fc : int) :
  Forall (fun r => kWastageThreshold < bytes_wasted r) (report_repeat show p n fc).
Proof.
  unfold report_repeat. cbv zeta.
  destruct (1 <? _); [|constructor].
  destruct (Z.ltb_spec kWastageThreshold
              (to_ULONGLONG (excess_count show (to_size_t (to_size_t (Z.of_nat n) - 1))
                                          (to_int (fc - 1)) * size p)));
    repeat constructor. assumption.
Qed.

Lemma find_repeats_above (show : bool) (symbols : list SymbolData) :
  Forall (fun r => kWastageThreshold < bytes_wasted r) (find_repeats show symbols).
Proof.
  funelim (find_repeats show symbols); simp find_repeats; [constructor|].
  rewrite Forall_app. split; [apply report_repeat_above | assumption].
Qed.

(** The rows of the size report are the symbols up to the [break]. *)
Lemma large_rows_prefix (l : list SymbolData) :
  exists rest, l = large_rows l ++ rest.
Proof.
  induction l as [|s l [rest IH]]; cbn [large_rows]; [now exists []|].
  destruct (size s <? kBigSizeThreshold).
  - now exists (s :: l).
  - exists rest. cbn [app]. now f_equal.
Qed.

Lemma large_rows_above (l : list SymbolData) :
  Forall (fun s => kBigSizeThreshold <= size s) (large_rows l).
Proof.
  induction l as [|s l IH]; cbn [large_rows]; [constructor|].
  destruct (Z.ltb_spec (size s) kBigSizeThreshold); constructor; assumption.
Qed.

(** ** Properties of the report *)

(** C2: every group of [duplicate_groups] wastes more than
    [kWastageThreshold] = 100 bytes, and the groups are listed by
    [bytes_wasted], descending. *)
Theorem duplicate_groups_threshold_descending {sorter : StdSort}
    (show_folded_constants : bool) (symbols : list SymbolData) :
  kWastageThreshold = 100 /\
  Forall (fun r => bytes_wasted r > kWastageThreshold)
         (duplicate_groups show_folded_constants symbols) /\
  StronglySorted (fun a b => bytes_wasted a >= bytes_wasted b)
                 (duplicate_groups show_folded_constants symbols).
Proof.
  split; [reflexivity|]. split.
  - rewrite <- duplicate_groups_perm.
    eapply Forall_impl; [|apply find_repeats_above]. cbv beta. intros r Hr. lia.
  - eapply StronglySorted_weaken; [|apply duplicate_groups_sorted].
    unfold RepeatData_lt. intros a b H. apply Z.ltb_ge in H. lia.
Qed.

(** Two symbols of the same size, both above the threshold: both are listed
    whatever [std::sort] does, the greater name first. *)
Lemma large_symbols_equal_sizes {sorter : StdSort} :
  large_symbols [mkSymbolData 1000 1 16 (L "a"); mkSymbolData 1000 1 32 (L "b")]
  = [mkSymbolData 1000 1 32 (L "b"); mkSymbolData 1000 1 16 (L "a")].
Proof.
  set (a := mkSymbolData 1000 1 16 (L "a")). set (b := mkSymbolData 1000 1 32 (L "b")).
  change (large_symbols [a; b]) with (large_rows (by_size [a; b])).
  pose proof (by_size_perm [a; b]) as Hperm.
  pose proof (by_size_sorted [a; b]) as Hsorted.
  apply Permutation_length_2_inv in Hperm. destruct Hperm as [H|H]; rewrite H in *.
  - exfalso. inversion Hsorted as [|? ? _ Hab]; subst.
    inversion Hab as [|? ? Hcmp _]; subst. vm_compute in Hcmp. discriminate.
  - reflexivity.
Qed.

(** C3 as stated fails: sizes need not descend strictly. *)
Lemma large_symbols_not_strictly_descending :
  ~ (forall (sorter : StdSort) (symbols : list SymbolData),
        StronglySorted (fun a b => size a > size b) (large_symbols symbols)).
Proof.
  intros H.
  specialize (H insertion_sorter
                [mkSymbolData 1000 1 16 (L "a"); mkSymbolData 1000 1 32 (L "b")]).
  rewrite large_symbols_equal_sizes in H.
  inversion H as [|? ? _ Hab]; subst. inversion Hab as [|? ? Hcmp _]; subst.
  cbn in Hcmp. lia.
Qed.

Lemma scan_whole (p : SymbolData) (g : list SymbolData) (fc : int) :
  Forall (fun s => same_group p s = true) g -> fst (fst (scan p g fc)) = g.
Proof.
  intros Hg. revert fc. induction Hg as [|s g Hs Hg IH]; intros fc; cbn [scan]; [reflexivity|].
  rewrite Hs.
  match goal with |- context [scan p g ?f] => specialize (IH f) end.
  destruct_scan p g. cbn [fst] in *. now f_equal.
Qed.

(** The number of instances of a group that count as folded with [p]. *)
Definition folded (p : SymbolData) (g : list SymbolData) : Z :=
  Z.of_nat (length (filter (offset_match p) g)).

Lemma folded_zero_offset (p : SymbolData) (g : list SymbolData) :
  offset p = 0 -> folded p g = 0.
Proof.
  intros Hp. unfold folded.
  replace (filter (offset_match p) g) with (@nil SymbolData); [reflexivity|].
  symmetry. induction g as [|s g IH]; cbn [filter]; [reflexivity|].
  unfold offset_match at 1. rewrite Hp, Z.eqb_refl, andb_false_r. exact IH.
Qed.

Lemma folded_head (p : SymbolData) (tl : list SymbolData) :
  offset p <> 0 -> folded p (p :: tl) = 1 + folded p tl.
Proof.
  intros Hp. unfold folded. cbn [filter].
  unfold offset_match at 1. rewrite Z.eqb_refl.
  destruct (Z.eqb_spec (offset p) 0); [contradiction|].
  cbn [andb negb length]. lia.
Qed.

Lemma folded_bounds (p : SymbolData) (g : list SymbolData) :
  0 <= folded p g <= Z.of_nat (length g).
Proof.
  unfold folded. pose proof (filter_length_le (offset_match p) g). lia.
Qed.

(** A group of one symbol is not reported. *)
Lemma report_group_length (show : bool) (g : list SymbolData) (r : RepeatData) :
  In r (report_group show g) -> (2 <= length g)%nat.
Proof.
  destruct g as [|p tl]; [intros []|].
  unfold report_group, report_repeat. cbv zeta.
  destruct (Z.ltb_spec 1 (to_size_t (Z.of_nat (length (p :: tl))))) as [Hlt|]; [|intros []].
  intros _. unfold to_size_t in Hlt.
  pose proof (Z.mod_le (Z.of_nat (length (p :: tl))) (2 ^ 64) ltac:(lia) ltac:(lia)).
  cbn [length] in *. lia.
Qed.

(** What is reported for a group [p :: tl] of symbols of the size and name
    of [p], short enough for the [int] counter. *)
Lemma report_group_inv (show : bool) (p : SymbolData) (tl : list SymbolData)
    (r : RepeatData) :
  Z.of_nat (length (p :: tl)) < 2 ^ 31 ->
  Forall (fun s => same_group p s = true) (p :: tl) ->
  In r (report_group show (p :: tl)) ->
  repeat_count r = Z.of_nat (length tl) /\
  folding_count r = folded p (p :: tl) - 1 /\
  bytes_wasted r
  = to_ULONGLONG (excess_count show (repeat_count r) (folding_count r) * size p) /\
  rname r = name p.
Proof.
  intros Hlen Hg Hr. pose proof (report_group_length _ _ _ Hr) as H2.
  unfold report_group, report_repeat in Hr. cbv zeta in Hr.
  assert (Hfold : scan_folding p (p :: tl) = folded p (p :: tl)).
  { unfold scan_folding. rewrite scan_folding_count by lia.
    rewrite scan_whole by assumption. reflexivity. }
  rewrite Hfold in Hr.
  pose proof (folded_bounds p (p :: tl)) as Hb.
  cbn [length] in *.
  assert (Hrc : to_size_t (to_size_t (Z.of_nat (S (length tl))) - 1)
                = Z.of_nat (length tl)).
  { unfold to_size_t.
    rewrite (Z.mod_small (Z.of_nat (S (length tl)))) by lia.
    rewrite Z.mod_small by lia. lia. }
  assert (Hfc : to_int (folded p (p :: tl) - 1) = folded p (p :: tl) - 1).
  { unfold to_int. rewrite Z.mod_small; lia. }
  rewrite Hrc, Hfc in Hr.
  destruct (1 <? _); [|destruct Hr].
  destruct (kWastageThreshold <? _); [|destruct Hr].
  destruct Hr as [<-|[]]. cbn. auto.
Qed.

Lemma StronglySorted_nth_error {A : Type} (R : A -> A -> Prop) (l : list A) :
  StronglySorted R l ->
  forall i j x y, (i < j)%nat ->
                  nth_error l i = Some x -> nth_error l j = Some y -> R x y.
Proof.
  induction 1 as [|z l Hs IH Hz]; intros i j x y Hij Hi Hj.
  - destruct i; discriminate.
  - destruct j as [|j]; [lia|]. cbn [nth_error] in Hj. destruct i as [|i].
    + cbn in Hi. injection Hi as <-. rewrite Forall_forall in Hz.
      apply Hz. eapply nth_error_In; eassumption.
    + cbn [nth_error] in Hi. apply (IH i j); [lia | assumption | assumption].
Qed.

Lemma groups_length (symbols g : list SymbolData) :
  In g (groups symbols) -> (length g <= length symbols)%nat.
Proof.
  intros Hg. rewrite <- (groups_concat symbols).
  induction (groups symbols) as [|g' G IH]; [destruct Hg|].
  cbn [concat]. rewrite length_app. destruct Hg as [<-|Hg]; [lia|].
  specialize (IH Hg). lia.
Qed.

Section Groups.

Context {sorter : StdSort}.

(** The groups of the symbols: those of the range sorted by name, then
    size. *)
Definition symbol_groups (symbols : list SymbolData) : list (list SymbolData) :=
  groups (std_sort NameCompare symbols).

Lemma symbol_groups_perm (symbols : list SymbolData) :
  Permutation symbols (concat (symbol_groups symbols)).
Proof.
  unfold symbol_groups. rewrite groups_concat.
  apply std_sort_perm, NameCompare_swo.
Qed.

(** Every printed group is the report of one of the groups. *)
Lemma duplicate_groups_origin (show : bool) (symbols : list SymbolData)
    (r : RepeatData) :
  In r (duplicate_groups show symbols) ->
  exists p tl, In (p :: tl) (symbol_groups symbols) /\
               Forall (fun s => same_group p s = true) (p :: tl) /\
               In r (report_group show (p :: tl)) /\
               (length (p :: tl) <= length symbols)%nat.
Proof.
  intros Hr.
  apply (Permutation_in _ (Permutation_sym (duplicate_groups_perm show symbols))) in Hr.
  rewrite find_repeats_groups in Hr. apply in_flat_map in Hr.
  destruct Hr as (g & Hg & Hr).
  destruct (groups_same_group _ _ Hg) as (p & tl & -> & Hsame).
  exists p, tl. repeat split; try assumption.
  rewrite <- (std_sort_length NameCompare symbols NameCompare_swo).
  now apply groups_length.
Qed.

End Groups.

(** C5: in every group of [duplicate_groups], [folding_count] is at most
    [repeat_count] (for a symbol table whose length the [int] counter can
    hold). *)
Theorem folding_count_le_repeat_count {sorter : StdSort}
    (show_folded_constants : bool) (symbols : list SymbolData) :
  Z.of_nat (length symbols) < 2 ^ 31 ->
  Forall (fun r => folding_count r <= repeat_count r)
         (duplicate_groups show_folded_constants symbols).
Proof.
  intros Hlen. rewrite Forall_forall. intros r Hr.
  destruct (duplicate_groups_origin _ _ _ Hr) as (p & tl & _ & Hsame & Hrep & Hle).
  destruct (report_group_inv show_folded_constants p tl r) as (Hrc & Hfc & _);
    [lia | assumption | assumption |].
  rewrite Hrc, Hfc. pose proof (folded_bounds p (p :: tl)) as Hb.
  cbn [length] in Hb. lia.
Qed.

Lemma folding_count_le_repeat_count_witness :
  let symbols := [mkSymbolData 64 1 16 (L "k"); mkSymbolData 64 1 16 (L "k");
                  mkSymbolData 64 1 16 (L "k"); mkSymbolData 64 1 32 (L "k")] in
  duplicate_groups (sorter := insertion_sorter) true symbols
  = [mkRepeatData 3 2 192 (L "k")] /\
  Forall (fun r => folding_count r <= repeat_count r)
         (duplicate_groups (sorter := insertion_sorter) true symbols).
Proof.
  split; [reflexivity|].
  apply (folding_count_le_repeat_count (sorter := insertion_sorter)).
  vm_compute. reflexivity.
Defined.

(** C10: a printed group has [folding_count] = -1 exactly when the first
    symbol [p] of its group, in the order of the name sort, has offset zero,
    and a [folding_count] >= 0 otherwise; with offset zero and folded
    constants hidden, [excess_count] is [repeat_count + 1], and that many
    times the size is what [bytes_wasted] holds. *)
Theorem folding_count_of_zero_offset {sorter : StdSort}
    (show_folded_constants : bool) (symbols : list SymbolData) (r : RepeatData) :
  Z.of_nat (length symbols) < 2 ^ 31 ->
  In r (duplicate_groups show_folded_constants symbols) ->
  exists p tl,
    In (p :: tl) (symbol_groups symbols) /\
    In r (report_group show_folded_constants (p :: tl)) /\
    (folding_count r = -1 <-> offset p = 0) /\
    (offset p <> 0 -> folding_count r >= 0) /\
    (offset p = 0 ->
     excess_count false (repeat_count r) (folding_count r) = repeat_count r + 1) /\
    (offset p = 0 -> show_folded_constants = false ->
     bytes_wasted r = to_ULONGLONG ((repeat_count r + 1) * size p)).
Proof.
  intros Hlen Hr.
  destruct (duplicate_groups_origin _ _ _ Hr) as (p & tl & Hg & Hsame & Hrep & Hle).
  destruct (report_group_inv show_folded_constants p tl r) as (Hrc & Hfc & Hbw & _);
    [lia | assumption | assumption |].
  exists p, tl. split; [assumption|]. split; [assumption|].
  pose proof (folded_bounds p tl) as Hb. cbn [length] in Hle.
  assert (Hzero : offset p = 0 -> folding_count r = -1).
  { intros Hp. rewrite Hfc, folded_zero_offset by assumption. reflexivity. }
  assert (Hnonzero : offset p <> 0 -> folding_count r >= 0).
  { intros Hp. rewrite Hfc, folded_head by assumption. lia. }
  assert (Hexcess : offset p = 0 ->
            excess_count false (repeat_count r) (folding_count r) = repeat_count r + 1).
  { intros Hp. rewrite (Hzero Hp), Hrc. unfold excess_count, to_size_t.
    change (-1 mod 2 ^ 64) with (2 ^ 64 - 1).
    replace (Z.of_nat (length tl) - (2 ^ 64 - 1))
      with (Z.of_nat (length tl) + 1 + (-1) * 2 ^ 64) by lia.
    rewrite Z.mod_add by lia. apply Z.mod_small. lia. }
  repeat split.
  - intros Hm1. destruct (Z.eq_dec (offset p) 0) as [|Hp]; [assumption|].
    specialize (Hnonzero Hp). lia.
  - exact Hzero.
  - exact Hnonzero.
  - exact Hexcess.
  - intros Hp ->. rewrite Hbw, (Hexcess Hp). reflexivity.
Qed.

Lemma folding_count_of_zero_offset_witness :
  exists p tl,
    In (p :: tl) (symbol_groups (sorter := insertion_sorter)
                    [mkSymbolData 64 1 0 (L "k"); mkSymbolData 64 1 0 (L "k")]) /\
    In (mkRepeatData 1 (-1) 128 (L "k")) (report_group false (p :: tl)) /\
    (-1 = -1 <-> offset p = 0) /\
    (offset p <> 0 -> -1 >= 0) /\
    (offset p = 0 -> excess_count false 1 (-1) = 1 + 1) /\
    (offset p = 0 -> false = false -> 128 = to_ULONGLONG ((1 + 1) * size p)).
Proof.
  apply (folding_count_of_zero_offset (sorter := insertion_sorter) false
           [mkSymbolData 64 1 0 (L "k"); mkSymbolData 64 1 0 (L "k")]
           (mkRepeatData 1 (-1) 128 (L "k"))).
  - vm_compute. reflexivity.
  - vm_compute. left. reflexivity.
Defined.

(** C4: the groups cut the symbols so that two symbols lie in the same
    group exactly when their names and their sizes are equal, and a group
    of one symbol is never printed.  (Names as the constructor builds them,
    without a nul.) *)
Theorem grouping_exact {sorter : StdSort}
    (show_folded_constants : bool) (symbols : list SymbolData) :
  Forall (fun s => nul_free (name s)) symbols ->
  Permutation symbols (concat (symbol_groups symbols)) /\
  (forall i j gi gj a b,
      nth_error (symbol_groups symbols) i = Some gi ->
      nth_error (symbol_groups symbols) j = Some gj ->
      In a gi -> In b gj ->
      (i = j <-> name a = name b /\ size a = size b)) /\
  (forall r, In r (duplicate_groups show_folded_constants symbols) ->
             exists g, In g (symbol_groups symbols) /\
                       In r (report_group show_folded_constants g) /\
                       (2 <= length g)%nat).
Proof.
  intros Hnul. split; [apply symbol_groups_perm|]. split.
  - intros i j gi gj a b Hi Hj Ha Hb.
    assert (Hin : forall g s, In g (symbol_groups symbols) -> In s g ->
                              nul_free (name s)).
    { intros g s Hg Hs. rewrite Forall_forall in Hnul. apply Hnul.
      apply (Permutation_in _ (Permutation_sym (symbol_groups_perm symbols))).
      apply in_concat. eauto. }
    pose proof (Hin gi a (nth_error_In _ _ Hi) Ha) as Hna.
    pose proof (Hin gj b (nth_error_In _ _ Hj) Hb) as Hnb.
    rewrite <- (same_group_key a b Hna Hnb).
    assert (Hsorted : StronglySorted group_before (symbol_groups symbols)).
    { apply groups_sorted, std_sort_sorted, NameCompare_swo. }
    assert (Hlt : forall i j gi gj a b, (i < j)%nat ->
              nth_error (symbol_groups symbols) i = Some gi ->
              nth_error (symbol_groups symbols) j = Some gj ->
              In a gi -> In b gj -> same_group a b = false).
    { clear - Hsorted. intros i j gi gj a b Hij Hi Hj Ha Hb.
      pose proof (StronglySorted_nth_error _ _ Hsorted i j gi gj Hij Hi Hj a b Ha Hb) as H.
      destruct (same_group a b) eqn:E; [|reflexivity].
      apply same_group_NameCompare in E. destruct E. congruence. }
    split.
    + intros <-. rewrite Hi in Hj. injection Hj as <-.
      destruct (groups_same_group _ _ (nth_error_In _ _ Hi)) as (p & tl & -> & Hp).
      rewrite Forall_forall in Hp.
      apply (same_group_trans a p b); [|now apply Hp].
      rewrite same_group_sym. now apply Hp.
    + intros Hab. destruct (Nat.lt_trichotomy i j) as [Hij|[Hij|Hij]]; [|assumption|].
      * rewrite (Hlt i j gi gj a b Hij Hi Hj Ha Hb) in Hab. discriminate.
      * rewrite same_group_sym, (Hlt j i gj gi b a Hij Hj Hi Hb Ha) in Hab. discriminate.
  - intros r Hr.
    destruct (duplicate_groups_origin _ _ _ Hr) as (p & tl & Hg & _ & Hrep & _).
    exists (p :: tl). repeat split; try assumption.
    eapply report_group_length; eassumption.
Qed.

Lemma grouping_exact_witness :
  let symbols := [mkSymbolData 128 1 16 (L "k"); mkSymbolData 8 1 32 (L "k");
                  mkSymbolData 128 1 48 (L "k"); mkSymbolData 128 1 64 (L "j")] in
  Permutation symbols (concat (symbol_groups (sorter := insertion_sorter) symbols)) /\
  (forall i j gi gj a b,
      nth_error (symbol_groups (sorter := insertion_sorter) symbols) i = Some gi ->
      nth_error (symbol_groups (sorter := insertion_sorter) symbols) j = Some gj ->
      In a gi -> In b gj ->
      (i = j <-> name a = name b /\ size a = size b)) /\
  (forall r, In r (duplicate_groups (sorter := insertion_sorter) true symbols) ->
             exists g, In g (symbol_groups (sorter := insertion_sorter) symbols) /\
                       In r (report_group true g) /\
                       (2 <= length g)%nat).
Proof.
  apply (grouping_exact (sorter := insertion_sorter) true).
  repeat constructor; vm_compute; discriminate.
Defined.

(** ** Scenarios *)

Section Scenarios.

Context {sorter : StdSort}.

Lemma std_sort_same_pair {A : Type} (comp : A -> A -> bool) (x : A) :
  strict_weak_order comp -> std_sort comp [x; x] = [x; x].
Proof.
  intros H. pose proof (std_sort_perm _ comp [x; x] H) as Hp.
  apply Permutation_length_2_inv in Hp. now destruct Hp.
Qed.

Lemma duplicate_groups_one (show : bool) (symbols : list SymbolData) (r : RepeatData) :
  find_repeats show (std_sort NameCompare symbols) = [r] ->
  duplicate_groups show symbols = [r].
Proof.
  intros H. unfold duplicate_groups. cbv zeta. rewrite H.
  now rewrite std_sort_singleton by apply RepeatData_lt_swo.
Qed.

Lemma duplicate_groups_none (show : bool) (symbols : list SymbolData) :
  find_repeats show (std_sort NameCompare symbols) = [] ->
  duplicate_groups show symbols = [].
Proof.
  intros H. unfold duplicate_groups. cbv zeta. rewrite H.
  now rewrite std_sort_nil by apply RepeatData_lt_swo.
Qed.

(** A range of three symbols in some order. *)
Lemma Permutation_length_3_inv {A : Type} (a b c : A) (l : list A) :
  Permutation [a; b; c] l ->
  l = [a; b; c] \/ l = [a; c; b] \/ l = [b; a; c] \/
  l = [b; c; a] \/ l = [c; a; b] \/ l = [c; b; a].
Proof.
  intros H. pose proof (Permutation_length H) as Hlen.
  destruct l as [|x [|y [|z [|? ?]]]]; try discriminate. clear Hlen.
  assert (Hx : In x [a; b; c]) by (apply (Permutation_in _ (Permutation_sym H)); now left).
  destruct Hx as [<-|[<-|[<-|[]]]].
  - apply Permutation_cons_inv in H.
    apply Permutation_length_2_inv in H. destruct H as [H|H]; injection H as <- <-; auto.
  - assert (H' : Permutation (b :: [a; c]) (b :: [y; z]))
      by (rewrite <- H; apply perm_swap).
    apply Permutation_cons_inv, Permutation_length_2_inv in H'.
    destruct H' as [H'|H']; injection H' as <- <-; auto 6.
  - assert (H' : Permutation (c :: [a; b]) (c :: [y; z])).
    { rewrite <- H. apply (Permutation_cons_app [a; b] [] c). reflexivity. }
    apply Permutation_cons_inv, Permutation_length_2_inv in H'.
    destruct H' as [H'|H']; injection H' as <- <-; auto 7.
Qed.

End Scenarios.

(** C6: three records named "k" of size 64 at the offsets 0x10, 0x20 and
    0x30, in any order and whatever their sections: one group is printed,
    with [repeat_count] = 2, [folding_count] = 0 and [bytes_wasted] = 128,
    above the threshold of 100. *)
Theorem scenario_three_distinct_offsets {sorter : StdSort}
    (show_folded_constants : bool) (s1 s2 s3 : DWORD) (symbols : list SymbolData) :
  Permutation [mkSymbolData 64 s1 16 (L "k"); mkSymbolData 64 s2 32 (L "k");
               mkSymbolData 64 s3 48 (L "k")] symbols ->
  duplicate_groups show_folded_constants symbols = [mkRepeatData 2 0 128 (L "k")] /\
  128 > kWastageThreshold.
Proof.
  intros Hperm. split; [|reflexivity].
  apply duplicate_groups_one.
  pose proof (std_sort_perm _ NameCompare symbols NameCompare_swo) as Hsort.
  apply (Permutation_trans Hperm), Permutation_length_3_inv in Hsort.
  destruct show_folded_constants;
    destruct Hsort as [H|[H|[H|[H|[H|H]]]]]; rewrite H; reflexivity.
Qed.

Lemma scenario_three_distinct_offsets_witness :
  duplicate_groups (sorter := insertion_sorter) false
    [mkSymbolData 64 1 48 (L "k"); mkSymbolData 64 1 16 (L "k");
     mkSymbolData 64 2 32 (L "k")]
  = [mkRepeatData 2 0 128 (L "k")] /\
  128 > kWastageThreshold.
Proof.
  apply (scenario_three_distinct_offsets (sorter := insertion_sorter) false 1 2 1).
  apply Permutation_sym, (Permutation_cons_app [_; _] []), Permutation_refl.
Defined.




(** ** [DumpInterestingGlobals] and [wmain] *)

(** The statics whose [get_type] does not fail and yet leaves no type
    symbol: the turn of the loop that reads one crashes. *)
Definition type_symbol_missing (symbol : IDiaSymbol) : bool :=
  negb (FAILED (fst (get_locationType symbol)))
  && (out_value 0 (get_locationType symbol) =? LocIsStatic)
  && negb (FAILED (fst (get_type symbol)))
  && match snd (get_type symbol) with None => true | Some _ => false end.

Lemma read_symbol_crashes (symbol : IDiaSymbol) :
  snd (read_symbol symbol) = Crashes <-> type_symbol_missing symbol = true.
Proof.
  unfold read_symbol, type_symbol_missing. cbv zeta.
  destruct (FAILED (fst (get_locationType symbol))); cbn [negb andb snd];
    [split; discriminate|].
  destruct (out_value 0 (get_locationType symbol) =? LocIsStatic); cbn [negb andb snd];
    [|split; discriminate].
  destruct (FAILED (fst (get_type symbol))); cbn [negb andb snd];
    [split; discriminate|].
  destruct (snd (get_type symbol)); [|tauto].
  destruct (fst (get_name symbol) =? S_OK); cbn [snd]; split; discriminate.
Qed.

Lemma read_symbols_crashes (enum_symbols : list IDiaSymbol) :
  snd (read_symbols enum_symbols) = Crashes
  <-> existsb type_symbol_missing enum_symbols = true.
Proof.
  induction enum_symbols as [|symbol rest IH]; cbn [read_symbols existsb].
  - split; discriminate.
  - pose proof (read_symbol_crashes symbol) as H1.
    destruct (read_symbol symbol) as [out1 [syms1|]]; cbn [snd] in H1.
    + destruct (type_symbol_missing symbol);
        [destruct H1 as [_ H1]; discriminate (H1 eq_refl)|].
      cbn [orb]. rewrite <- IH.
      destruct (read_symbols rest) as [out2 [syms2|]]; cbn [snd];
        split; (discriminate || reflexivity).
    + destruct H1 as [H1 _]. rewrite (H1 eq_refl). now split.
Qed.

Lemma read_symbols_returns (enum_symbols : list IDiaSymbol) :
  existsb type_symbol_missing enum_symbols = false ->
  exists symbols, snd (read_symbols enum_symbols) = Returns symbols.
Proof.
  intros H. destruct (snd (read_symbols enum_symbols)) as [symbols|] eqn:E; [eauto|].
  apply read_symbols_crashes in E. congruence.
Qed.

Lemma read_symbol_lines (symbol : IDiaSymbol) :
  Forall (fun l => l = Message "Get_type failed.") (fst (read_symbol symbol)).
Proof.
  unfold read_symbol. cbv zeta.
  repeat match goal with
         | |- context [if ?c then _ else _] => destruct c
         | |- context [match snd (get_type symbol) with _ => _ end] =>
             destruct (snd (get_type symbol))
         end; repeat constructor.
Qed.

Lemma read_symbols_nil_lines (enum_symbols : list IDiaSymbol) :
  Forall (fun l => l = Message "Get_type failed.") (fst (read_symbols enum_symbols)).
Proof.
  induction enum_symbols as [|symbol rest IH]; cbn [read_symbols]; [constructor|].
  pose proof (read_symbol_lines symbol) as H1.
  destruct (read_symbol symbol) as [out1 [syms1|]]; [|exact H1].
  destruct (read_symbols rest) as [out2 [syms2|]]; cbn [fst] in *;
    rewrite Forall_app; now split.
Qed.

Lemma DumpInterestingGlobals_no_usage {sorter : StdSort}
    (global : Global) (filename : wstring) (show : bool) :
  ~ In usage (fst (DumpInterestingGlobals global filename show)).
Proof.
  unfold DumpInterestingGlobals. cbv zeta.
  destruct (FAILED (fst global)).
  - cbn. intros [H|[H|[]]]; discriminate.
  - pose proof (read_symbols_nil_lines (snd global)) as Hread.
    rewrite Forall_forall in Hread.
    destruct (read_symbols (snd global)) as [out_read [symbols|]]; cbn [fst] in *.
    + rewrite !in_app_iff, !in_map_iff.
      intros [[[[[H|[]]|H]|(r & H & _)]|[H|[]]]|(s & H & _)]; try discriminate.
      apply Hread in H. discriminate.
    + rewrite in_app_iff. intros [[H|[]]|H]; [discriminate|].
      apply Hread in H. discriminate.
Qed.

(** C7: when the enumeration of the global scope is there and every type
    symbol the loop asks for is given, the analysis cannot fail:
    [DumpInterestingGlobals] returns true after it has printed the header,
    the rows of the duplicate groups of the symbols read, the blank line and
    the rows of their large symbols; every turn of the duplicate scan moves
    on by one symbol at least, so the scan ends; and with no symbol both
    reports are empty and only the header and the blank line are printed. *)
Theorem analyzer_cannot_fail {sorter : StdSort}
    (global : Global) (filename : wstring) (show_folded_constants : bool) :
  FAILED (fst global) = false ->
  existsb type_symbol_missing (snd global) = false ->
  (exists symbols,
      snd (read_symbols (snd global)) = Returns symbols /\
      DumpInterestingGlobals global filename show_folded_constants
      = (Header :: fst (read_symbols (snd global))
           ++ map (fun r => RepeatRow r filename)
                  (duplicate_groups show_folded_constants symbols)
           ++ Blank :: map (fun s => SymbolRow s filename) (large_symbols symbols),
         Returns true)) /\
  (forall p tl, (length (scan_rest p (p :: tl)) < length (p :: tl))%nat) /\
  duplicate_groups show_folded_constants [] = [] /\
  large_symbols [] = [] /\
  (snd global = [] ->
   DumpInterestingGlobals global filename show_folded_constants
   = ([Header; Blank], Returns true)).
Proof.
  intros Hok Htypes.
  assert (Hd : duplicate_groups show_folded_constants [] = []).
  { apply duplicate_groups_none.
    now rewrite std_sort_nil by apply NameCompare_swo. }
  assert (Hl : large_symbols [] = []).
  { unfold large_symbols. cbv zeta.
    rewrite (std_sort_nil NameCompare) by apply NameCompare_swo.
    now rewrite std_sort_nil by apply SizeCompare_swo. }
  split; [|split; [apply scan_rest_head|split; [assumption|split; [assumption|]]]].
  - destruct (read_symbols_returns _ Htypes) as [symbols Hsyms].
    exists symbols. split; [assumption|].
    unfold DumpInterestingGlobals. cbv zeta. rewrite Hok.
    destruct (read_symbols (snd global)) as [out_read r]. cbn [fst snd] in *.
    subst r. cbn [app]. now rewrite <- !app_assoc.
  - intros Hnil. unfold DumpInterestingGlobals. cbv zeta. rewrite Hok, Hnil.
    cbn [read_symbols]. now rewrite Hd, Hl.
Qed.

Lemma analyzer_cannot_fail_witness :
  let k := {| get_locationType := (0, 1); get_type := (0, Some (0, 200));
              get_addressSection := (0, 1); get_addressOffset := (0, 16);
              get_name := (0, L "k") |} in
  let global := (S_OK, [k; k]) in
  let filename := L "chrome.dll.pdb" in
  (exists symbols,
      snd (read_symbols (snd global)) = Returns symbols /\
      DumpInterestingGlobals (sorter := insertion_sorter) global filename true
      = (Header :: fst (read_symbols (snd global))
           ++ map (fun r => RepeatRow r filename)
                  (duplicate_groups (sorter := insertion_sorter) true symbols)
           ++ Blank :: map (fun s => SymbolRow s filename)
                           (large_symbols (sorter := insertion_sorter) symbols),
         Returns true)) /\
  (forall p tl, (length (scan_rest p (p :: tl)) < length (p :: tl))%nat) /\
  duplicate_groups (sorter := insertion_sorter) true [] = [] /\
  large_symbols (sorter := insertion_sorter) [] = [] /\
  (snd global = [] ->
   DumpInterestingGlobals (sorter := insertion_sorter) global filename true
   = ([Header; Blank], Returns true)).
Proof.
  apply (analyzer_cannot_fail (sorter := insertion_sorter)
           (S_OK, [ {| get_locationType := (0, 1); get_type := (0, Some (0, 200));
                       get_addressSection := (0, 1); get_addressOffset := (0, 16);
                       get_name := (0, L "k") |};
                    {| get_locationType := (0, 1); get_type := (0, Some (0, 200));
                       get_addressSection := (0, 1); get_addressOffset := (0, 16);
                       get_name := (0, L "k") |} ])
           (L "chrome.dll.pdb") true); reflexivity.
Defined.

(** With no file name left by the arguments, [wmain] prints the usage
    message and returns -1. *)
Lemma wmain_usage {sorter : StdSort} (sys : Platform) (argv : list wstring) :
  snd (parse_args argv false None) = None -> wmain sys argv = ([usage], Returns (-1)).
Proof.
  unfold wmain. destruct (parse_args argv false None) as [show filename].
  cbn [snd]. now intros ->.
Qed.

(** [Initialize] either fails with one diagnostic or succeeds silently. *)
Lemma Initialize_cases (sys : Platform) (filename : wstring) :
  (exists text hr, Initialize sys filename = ([Failure text hr], None)) \/
  (exists global, Initialize sys filename = ([], Some global)).
Proof.
  unfold Initialize. cbv zeta.
  repeat match goal with
         | |- context [if ?c then _ else _] => destruct c
         end; eauto.
Qed.

(** When [Initialize] fails, [wmain] prints its diagnostic and returns -1. *)
Lemma wmain_initialize_failure {sorter : StdSort} (sys : Platform)
    (argv : list wstring) (filename : wstring) :
  snd (parse_args argv false None) = Some filename ->
  FAILED (CoInitialize sys) = false ->
  snd (Initialize sys filename) = None ->
  exists text hr, wmain sys argv = ([Failure text hr], Returns (-1)).
Proof.
  unfold wmain. destruct (parse_args argv false None) as [show f].
  cbn [snd]. intros -> -> Hinit.
  destruct (Initialize_cases sys filename) as [(text & hr & H)|(global & H)];
    rewrite H in *; [eauto | discriminate].
Qed.

(** What [wmain] prints once [Initialize] has given the global scope. *)
Lemma wmain_dump_lines {sorter : StdSort} (global : Global) (filename : wstring)
    (show : bool) :
  fst (match DumpInterestingGlobals global filename show with
       | (out_dump, Crashes) => ([] ++ out_dump, @Crashes int)
       | (out_dump, Returns _) => ([] ++ out_dump, Returns 0)
       end)
  = fst (DumpInterestingGlobals global filename show).
Proof.
  now destruct (DumpInterestingGlobals global filename show) as [out [b|]].
Qed.

(** C8, at the command line of the program alone: the loop over [argv]
    starts at index 0, so the program's name is taken for the file name and
    no usage message is printed. *)
Theorem wmain_program_name_taken_as_path {sorter : StdSort} (sys : Platform) :
  parse_args [L "ShowGlobals.exe"] false None = (false, Some (L "ShowGlobals.exe")) /\
  ~ In usage (fst (wmain sys [L "ShowGlobals.exe"])).
Proof.
  split; [reflexivity|].
  unfold wmain.
  change (parse_args [L "ShowGlobals.exe"] false None)
    with (false, Some (L "ShowGlobals.exe")).
  cbv iota beta.
  destruct (FAILED (CoInitialize sys)); [cbn; intros [H|[]]; discriminate|].
  destruct (Initialize_cases sys (L "ShowGlobals.exe")) as [(text & hr & H)|(global & H)];
    rewrite H.
  - cbn. intros [H'|[]]; discriminate.
  - rewrite wmain_dump_lines. apply DumpInterestingGlobals_no_usage.
Qed.

(** ** The order of the input *)

Lemma Permutation_filter {A : Type} (f : A -> bool) (l1 l2 : list A) :
  Permutation l1 l2 -> Permutation (filter f l1) (filter f l2).
Proof.
  induction 1 as [|x l1 l2 _ IH|x y l|l1 l2 l3 _ IH1 _ IH2]; cbn [filter].
  - constructor.
  - destruct (f x); [now constructor | assumption].
  - destruct (f x), (f y); try reflexivity. apply perm_swap.
  - now transitivity (filter f l2).
Qed.

Lemma filter_all {A : Type} (f : A -> bool) (l : list A) :
  Forall (fun x => f x = true) l -> filter f l = l.
Proof.
  induction 1 as [|x l Hx _ IH]; cbn [filter]; [reflexivity|].
  rewrite Hx. now f_equal.
Qed.

Lemma filter_none {A : Type} (f : A -> bool) (l : list A) :
  Forall (fun x => f x = false) l -> filter f l = [].
Proof.
  induction 1 as [|x l Hx _ IH]; cbn [filter]; [reflexivity|].
  now rewrite Hx.
Qed.

Lemma StronglySorted_map {A B : Type} (R : B -> B -> Prop) (f : A -> B) (l : list A) :
  StronglySorted (fun a b => R (f a) (f b)) l -> StronglySorted R (map f l).
Proof.
  induction 1 as [|x l _ IH Hx]; cbn [map]; constructor; [assumption|].
  rewrite Forall_map. exact Hx.
Qed.

(** A sorted range is fixed by its elements where the comparison tells all
    of them apart. *)
Lemma sorted_perm_unique {K : Type} (comp : K -> K -> bool) (P : K -> Prop) :
  strict_weak_order comp ->
  (forall a b, P a -> P b -> comp a b = false -> comp b a = false -> a = b) ->
  forall l1 l2, Forall P l1 -> sorted_by comp l1 -> sorted_by comp l2 ->
                Permutation l1 l2 -> l1 = l2.
Proof.
  intros Hswo Heq. unfold sorted_by.
  induction l1 as [|a l1 IH]; intros l2 HP H1 H2 Hperm.
  - apply Permutation_nil in Hperm. now subst.
  - destruct l2 as [|b l2]; [apply Permutation_sym, Permutation_nil in Hperm; discriminate|].
    inversion H1 as [|? ? H1' Ha]; subst. inversion H2 as [|? ? H2' Hb]; subst.
    inversion HP as [|? ? HPa HP']; subst.
    rewrite Forall_forall in Ha, Hb, HP'.
    assert (Hab : a = b).
    { assert (Hb1 : In b (a :: l1))
        by (apply (Permutation_in _ (Permutation_sym Hperm)); now left).
      assert (Ha2 : In a (b :: l2)) by (apply (Permutation_in _ Hperm); now left).
      destruct Hb1 as [|Hb1]; [assumption|].
      destruct Ha2 as [|Ha2]; [now symmetry|].
      apply Heq; [assumption | now apply HP' | now apply Hb | now apply Ha]. }
    subst b. f_equal. apply IH; try assumption.
    + now apply Forall_forall.
    + now apply Permutation_cons_inv in Hperm.
Qed.

(** In a range sorted by [NameCompare], the scan from the first symbol [p]
    takes all the symbols of the group of [p] and leaves all the others. *)
Lemma sorted_scan_filter (p : SymbolData) (tl : list SymbolData) :
  sorted_by NameCompare (p :: tl) ->
  scan_run p (p :: tl) = filter (same_group p) (p :: tl) /\
  scan_rest p (p :: tl) = filter (fun s => negb (same_group p s)) (p :: tl).
Proof.
  intros Hsorted.
  pose proof (sorted_scan_rest p tl Hsorted) as Hrest.
  pose proof (scan_run_same_group p (p :: tl) 0) as Hrun. fold (scan_run p (p :: tl)) in Hrun.
  assert (Hrest' : Forall (fun s => same_group p s = false) (scan_rest p (p :: tl))).
  { eapply Forall_impl; [|exact Hrest]. cbv beta. intros s Hs.
    destruct (same_group p s) eqn:E; [|reflexivity].
    apply same_group_NameCompare in E. destruct E. congruence. }
  rewrite <- (scan_run_rest p (p :: tl)) at 2 4. rewrite !filter_app. split.
  - rewrite (filter_all _ _ Hrun), (filter_none _ _ Hrest'). now rewrite app_nil_r.
  - rewrite filter_none, filter_all; [reflexivity | |].
    + eapply Forall_impl; [|exact Hrest']. cbv beta. now intros s ->.
    + eapply Forall_impl; [|exact Hrun]. cbv beta. now intros s ->.
Qed.

Lemma sorted_head_least {A : Type} (comp : A -> A -> bool) (x : A) (l : list A) :
  strict_weak_order comp -> sorted_by comp (x :: l) ->
  forall y, In y (x :: l) -> comp y x = false.
Proof.
  intros Hswo Hs y [<-|Hy]; [apply (swo_irrefl comp Hswo)|].
  inversion Hs as [|? ? _ Hx]; subst. rewrite Forall_forall in Hx. now apply Hx.
Qed.

(** Two sorted orders of the same symbols are cut into the same groups, up
    to the order inside each group. *)
Lemma groups_perm (l1 l2 : list SymbolData) :
  sorted_by NameCompare l1 -> sorted_by NameCompare l2 -> Permutation l1 l2 ->
  Forall2 (@Permutation SymbolData) (groups l1) (groups l2).
Proof.
  revert l2. funelim (groups l1); intros l2 Hs1 Hs2 Hperm.
  - apply Permutation_nil in Hperm. subst. simp groups. constructor.
  - destruct l2 as [|p2 t2]; [apply Permutation_sym, Permutation_nil in Hperm; discriminate|].
    simp groups.
    destruct (sorted_scan_filter p tl Hs1) as [Hrun1 Hrest1].
    destruct (sorted_scan_filter p2 t2 Hs2) as [Hrun2 Hrest2].
    assert (Hpp : same_group p p2 = true).
    { apply same_group_NameCompare. split.
      - apply (sorted_head_least NameCompare p2 t2 NameCompare_swo Hs2).
        apply (Permutation_in _ Hperm). now left.
      - apply (sorted_head_least NameCompare p tl NameCompare_swo Hs1).
        apply (Permutation_in _ (Permutation_sym Hperm)). now left. }
    assert (Hext : forall s, same_group p2 s = same_group p s).
    { intros s. destruct (same_group p s) eqn:E1, (same_group p2 s) eqn:E2; try reflexivity.
      - rewrite same_group_sym in Hpp.
        rewrite (same_group_trans p2 p s Hpp E1) in E2. discriminate.
      - rewrite (same_group_trans p p2 s Hpp E2) in E1. discriminate. }
    rewrite Hrun2, Hrest2.
    rewrite (filter_ext _ _ Hext).
    rewrite (filter_ext (fun s => negb (same_group p2 s)) (fun s => negb (same_group p s)))
      by (intros s; now rewrite Hext).
    constructor.
    + rewrite Hrun1. now apply Permutation_filter.
    + apply H.
      * pose proof (scan_run_rest p (p :: tl)) as Hsplit. rewrite <- Hsplit in Hs1.
        now apply sorted_by_app_inv in Hs1.
      * rewrite <- (filter_ext (fun s => negb (same_group p2 s))) by (intros s; now rewrite Hext).
        rewrite <- Hrest2.
        pose proof (scan_run_rest p2 (p2 :: t2)) as Hsplit. rewrite <- Hsplit in Hs2.
        now apply sorted_by_app_inv in Hs2.
      * rewrite Hrest1. now apply Permutation_filter.
Qed.

(** What a printed group says besides its folding count. *)
Definition group_summary (r : RepeatData) : ULONGLONG * ULONGLONG * wstring :=
  (repeat_count r, bytes_wasted r, rname r).

(** The columns [SizeCompare] orders the symbols by. *)
Definition symbol_key (s : SymbolData) : ULONGLONG * wstring := (size s, name s).

Definition key_lt (k1 k2 : ULONGLONG * wstring) : bool :=
  SizeCompare (mkSymbolData (fst k1) 0 0 (snd k1)) (mkSymbolData (fst k2) 0 0 (snd k2)).

Lemma key_lt_swo : strict_weak_order key_lt.
Proof.
  split; unfold key_lt; intros.
  - apply (swo_irrefl _ SizeCompare_swo).
  - eapply (swo_trans _ SizeCompare_swo); eassumption.
  - eapply (swo_equiv _ SizeCompare_swo); eassumption.
Qed.

Lemma key_lt_eq (k1 k2 : ULONGLONG * wstring) :
  nul_free (snd k1) -> nul_free (snd k2) ->
  key_lt k1 k2 = false -> key_lt k2 k1 = false -> k1 = k2.
Proof.
  destruct k1 as [z1 n1], k2 as [z2 n2]. unfold key_lt, SizeCompare. cbn [fst snd size name].
  intros H1 H2. pose proof (StringCompare_antisym n1 n2).
  pose proof (StringCompare_eq n1 n2 H1 H2).
  destruct_tests; intros; try discriminate; try lia.
  f_equal; [assumption|]. apply H0. lia.
Qed.

Lemma report_repeat_summary (p p' : SymbolData) (n : nat) (fc fc' : int) :
  name p = name p' -> size p = size p' ->
  map group_summary (report_repeat true p n fc)
  = map group_summary (report_repeat true p' n fc').
Proof.
  intros Hn Hs. unfold report_repeat, excess_count. cbv zeta. rewrite Hn, Hs.
  destruct (1 <? _); [|reflexivity].
  destruct (kWastageThreshold <? _); reflexivity.
Qed.

Lemma report_group_summary (g1 g2 : list SymbolData) (p : SymbolData) :
  Forall (fun s => nul_free (name s)) g1 ->
  Forall (fun s => same_group p s = true) g1 ->
  Permutation g1 g2 ->
  map group_summary (report_group true g1) = map group_summary (report_group true g2).
Proof.
  intros Hnul Hsame Hperm.
  destruct g1 as [|p1 t1].
  { apply Permutation_nil in Hperm. now subst. }
  destruct g2 as [|p2 t2]; [apply Permutation_sym, Permutation_nil in Hperm; discriminate|].
  unfold report_group. rewrite (Permutation_length Hperm).
  rewrite Forall_forall in Hnul, Hsame.
  assert (H2 : In p2 (p1 :: t1))
    by (apply (Permutation_in _ (Permutation_sym Hperm)); now left).
  assert (Hk : same_group p1 p2 = true).
  { apply (same_group_trans p1 p p2); [|now apply Hsame].
    rewrite same_group_sym. apply Hsame. now left. }
  apply same_group_key in Hk; [|apply Hnul; now left | now apply Hnul].
  destruct Hk. now apply report_repeat_summary.
Qed.

Lemma flat_map_report_summary (G1 G2 : list (list SymbolData)) :
  Forall (fun g => Forall (fun s => nul_free (name s)) g /\
                   exists p, Forall (fun s => same_group p s = true) g) G1 ->
  Forall2 (@Permutation SymbolData) G1 G2 ->
  map group_summary (flat_map (report_group true) G1)
  = map group_summary (flat_map (report_group true) G2).
Proof.
  intros HG. induction 1 as [|g1 g2 G1 G2 Hg _ IH]; [reflexivity|].
  inversion HG as [|? ? [Hnul [p Hp]] HG']; subst.
  cbn [flat_map]. rewrite !map_app. f_equal; [|now apply IH].
  eapply report_group_summary; eassumption.
Qed.

(** On a range that descends by size, stopping at the first small symbol
    keeps all the large ones. *)
Lemma large_rows_filter (l : list SymbolData) :
  StronglySorted (fun a b => SizeCompare a b = false) l ->
  large_rows l = filter (fun s => negb (size s <? kBigSizeThreshold)) l.
Proof.
  induction 1 as [|s l _ IH Hs]; cbn [large_rows filter]; [reflexivity|].
  destruct (Z.ltb_spec (size s) kBigSizeThreshold) as [Hlt|Hge]; cbn [negb].
  - symmetry. apply filter_none. eapply Forall_impl; [|exact Hs].
    cbv beta. unfold SizeCompare. intros b Hb.
    destruct (Z.ltb_spec (size b) kBigSizeThreshold); [reflexivity|].
    destruct_tests; try discriminate; lia.
  - now f_equal.
Qed.

Lemma large_rows_keys (l1 l2 : list SymbolData) :
  map symbol_key l1 = map symbol_key l2 ->
  map symbol_key (large_rows l1) = map symbol_key (large_rows l2).
Proof.
  revert l2. induction l1 as [|a l1 IH]; intros [|b l2] H; try discriminate; [reflexivity|].
  cbn [map] in H. injection H as Hsize Hname Htl. cbn [large_rows]. rewrite Hsize.
  destruct (size b <? kBigSizeThreshold); [reflexivity|].
  cbn [map]. f_equal; [unfold symbol_key; congruence | now apply IH].
Qed.

(** C3, as the code has it: [large_symbols] is listed by size, descending,
    symbols of equal size by name, descending; every entry is a symbol of the
    input of size at least [kBigSizeThreshold] = 500, and every such symbol
    of the input is listed, as often as it occurs. *)
Theorem large_symbols_descending_threshold {sorter : StdSort}
    (symbols : list SymbolData) :
  kBigSizeThreshold = 500 /\
  StronglySorted
    (fun a b => size a > size b \/
                (size a = size b /\ StringCompare (name a) (name b) >= 0))
    (large_symbols symbols) /\
  Forall (fun s => In s symbols /\ size s >= kBigSizeThreshold) (large_symbols symbols) /\
  Permutation (large_symbols symbols)
              (filter (fun s => kBigSizeThreshold <=? size s) symbols).
Proof.
  split; [reflexivity|].
  change (large_symbols symbols) with (large_rows (by_size symbols)).
  destruct (large_rows_prefix (by_size symbols)) as [rest Hrest].
  split; [|split].
  - pose proof (by_size_sorted symbols) as Hs. rewrite Hrest in Hs.
    apply StronglySorted_app_inv in Hs. destruct Hs as (Hs & _ & _).
    eapply StronglySorted_weaken; [|exact Hs].
    cbv beta. unfold SizeCompare. intros a b H. destruct_tests; try lia; discriminate.
  - pose proof (large_rows_above (by_size symbols)) as Habove.
    rewrite Forall_forall in *. intros s Hs. split; [|specialize (Habove s Hs); lia].
    apply (Permutation_in _ (Permutation_sym (by_size_perm symbols))).
    rewrite Hrest. apply in_or_app. now left.
  - rewrite large_rows_filter by apply by_size_sorted.
    rewrite (filter_ext _ (fun s => kBigSizeThreshold <=? size s)).
    + apply Permutation_filter, Permutation_sym, by_size_perm.
    + intros s. destruct (Z.ltb_spec (size s) kBigSizeThreshold),
        (Z.leb_spec kBigSizeThreshold (size s)); try reflexivity; lia.
Qed.

Lemma Zltb_swo : strict_weak_order Z.ltb.
Proof.
  split; intros; destruct_tests; try split; lia.
Qed.

Lemma bytes_wasted_summary (l : list RepeatData) :
  map bytes_wasted l = map (fun t => snd (fst t)) (map group_summary l).
Proof. rewrite map_map. reflexivity. Qed.

Section InputOrder.

Context {sorter : StdSort}.

Variables l1 l2 : list SymbolData.
Hypothesis Hnul : Forall (fun s => nul_free (name s)) l1.
Hypothesis Hperm : Permutation l1 l2.

Lemma by_size_order : Permutation (by_size l1) (by_size l2).
Proof.
  rewrite <- !by_size_perm. exact Hperm.
Qed.

Lemma by_size_keys : map symbol_key (by_size l1) = map symbol_key (by_size l2).
Proof.
  unfold by_size, std_reverse. rewrite !map_rev. f_equal.
  assert (Hp : forall l, Permutation l (std_sort SizeCompare (std_sort NameCompare l))).
  { intros l. rewrite <- (std_sort_perm _ SizeCompare _ SizeCompare_swo).
    apply std_sort_perm, NameCompare_swo. }
  apply (sorted_perm_unique key_lt (fun k => nul_free (snd k)) key_lt_swo).
  - intros a b. apply key_lt_eq.
  - rewrite Forall_map. cbn [snd symbol_key]. now rewrite <- (Hp l1).
  - apply StronglySorted_map.
    apply (std_sort_sorted _ SizeCompare _ SizeCompare_swo).
  - apply StronglySorted_map.
    apply (std_sort_sorted _ SizeCompare _ SizeCompare_swo).
  - apply Permutation_map. now rewrite <- !Hp.
Qed.

Lemma find_repeats_summary :
  map group_summary (find_repeats true (std_sort NameCompare l1))
  = map group_summary (find_repeats true (std_sort NameCompare l2)).
Proof.
  rewrite !find_repeats_groups. apply flat_map_report_summary.
  - rewrite Forall_forall. intros g Hg. split.
    + rewrite Forall_forall in *. intros s Hs. apply Hnul.
      apply (Permutation_in _ (Permutation_sym (symbol_groups_perm l1))).
      apply in_concat. eauto.
    + destruct (groups_same_group _ _ Hg) as (p & tl & _ & Hp). eauto.
  - apply groups_perm; try apply std_sort_sorted, NameCompare_swo.
    rewrite <- !(std_sort_perm _ NameCompare _ NameCompare_swo). exact Hperm.
Qed.

Lemma duplicate_groups_summary :
  Permutation (map group_summary (duplicate_groups true l1))
              (map group_summary (duplicate_groups true l2)).
Proof.
  rewrite <- !duplicate_groups_perm. now rewrite find_repeats_summary.
Qed.

Lemma duplicate_groups_bytes_wasted :
  map bytes_wasted (duplicate_groups true l1) = map bytes_wasted (duplicate_groups true l2).
Proof.
  unfold duplicate_groups, std_reverse. cbv zeta. rewrite !map_rev. f_equal.
  apply (sorted_perm_unique Z.ltb (fun _ => True) Zltb_swo).
  - intros a b _ _. destruct_tests; intros; try discriminate; lia.
  - apply Forall_forall. auto.
  - apply StronglySorted_map.
    apply (std_sort_sorted _ RepeatData_lt _ RepeatData_lt_swo).
  - apply StronglySorted_map.
    apply (std_sort_sorted _ RepeatData_lt _ RepeatData_lt_swo).
  - rewrite <- !(std_sort_perm _ RepeatData_lt _ RepeatData_lt_swo).
    rewrite !bytes_wasted_summary, find_repeats_summary. reflexivity.
Qed.

End InputOrder.

(** C9, as the code has it: for two orders of the same symbols (names
    without a nul), [large_symbols] lists the same symbols with the same
    sizes and names row by row, and with folded constants shown
    [duplicate_groups] lists the same repeat counts, wasted bytes and names,
    row by row the same wasted bytes; rows with equal keys may trade
    places. *)
Theorem input_order_independence {sorter : StdSort} (l1 l2 : list SymbolData) :
  Forall (fun s => nul_free (name s)) l1 ->
  Permutation l1 l2 ->
  Permutation (large_symbols l1) (large_symbols l2) /\
  map symbol_key (large_symbols l1) = map symbol_key (large_symbols l2) /\
  Permutation (map group_summary (duplicate_groups true l1))
              (map group_summary (duplicate_groups true l2)) /\
  map bytes_wasted (duplicate_groups true l1) = map bytes_wasted (duplicate_groups true l2).
Proof.
  intros Hnul Hperm.
  change (large_symbols l1) with (large_rows (by_size l1)).
  change (large_symbols l2) with (large_rows (by_size l2)).
  repeat split.
  - rewrite !large_rows_filter by apply by_size_sorted.
    apply Permutation_filter, by_size_order, Hperm.
  - apply large_rows_keys, by_size_keys; assumption.
  - now apply duplicate_groups_summary.
  - now apply duplicate_groups_bytes_wasted.
Qed.

Lemma input_order_independence_witness :
  let l1 := [mkSymbolData 600 1 16 (L "k"); mkSymbolData 600 1 16 (L "k");
             mkSymbolData 600 2 32 (L "k")] in
  let l2 := [mkSymbolData 600 2 32 (L "k"); mkSymbolData 600 1 16 (L "k");
             mkSymbolData 600 1 16 (L "k")] in
  Permutation (large_symbols (sorter := insertion_sorter) l1)
              (large_symbols (sorter := insertion_sorter) l2) /\
  map symbol_key (large_symbols (sorter := insertion_sorter) l1)
  = map symbol_key (large_symbols (sorter := insertion_sorter) l2) /\
  Permutation (map group_summary (duplicate_groups (sorter := insertion_sorter) true l1))
              (map group_summary (duplicate_groups (sorter := insertion_sorter) true l2)) /\
  map bytes_wasted (duplicate_groups (sorter := insertion_sorter) true l1)
  = map bytes_wasted (duplicate_groups (sorter := insertion_sorter) true l2).
Proof.
  apply (input_order_independence (sorter := insertion_sorter)).
  - repeat constructor; vm_compute; discriminate.
  - apply Permutation_sym, (Permutation_cons_app [_; _] []), Permutation_refl.
Defined.

(** C9 as stated fails: with the same three records in two orders, folded
    constants hidden, one order reports a group and the other none. *)
Lemma input_order_changes_groups :
  ~ (forall (sorter : StdSort) (show_folded_constants : bool)
            (l1 l2 : list SymbolData),
        Permutation l1 l2 ->
        Permutation (duplicate_groups show_folded_constants l1)
                    (duplicate_groups show_folded_constants l2)).
Proof.
  intros H.
  specialize (H insertion_sorter false
                [mkSymbolData 64 1 16 (L "k"); mkSymbolData 64 1 16 (L "k");
                 mkSymbolData 64 1 32 (L "k")]
                [mkSymbolData 64 1 32 (L "k"); mkSymbolData 64 1 16 (L "k");
                 mkSymbolData 64 1 16 (L "k")]).
  assert (Hp : Permutation
                 [mkSymbolData 64 1 16 (L "k"); mkSymbolData 64 1 16 (L "k");
                  mkSymbolData 64 1 32 (L "k")]
                 [mkSymbolData 64 1 32 (L "k"); mkSymbolData 64 1 16 (L "k");
                  mkSymbolData 64 1 16 (L "k")])
    by apply Permutation_sym, (Permutation_cons_app [_; _] []), Permutation_refl.
  specialize (H Hp). vm_compute in H.
  apply Permutation_nil in H. discriminate.
Qed.


(** * Further properties of the program *)

(** ** The comparison functions *)

(** X1: the three comparison functions the program hands to [std::sort],
    [NameCompare], [SizeCompare] and [RepeatData::operator<], are strict
    weak orderings, as [std::sort] requires; each is asymmetric as well. *)
Theorem sort_comparators_strict_weak :
  (strict_weak_order NameCompare /\
   forall a b, NameCompare a b = true -> NameCompare b a = false) /\
  (strict_weak_order SizeCompare /\
   forall a b, SizeCompare a b = true -> SizeCompare b a = false) /\
  (strict_weak_order RepeatData_lt /\
   forall a b, RepeatData_lt a b = true -> RepeatData_lt b a = false).
Proof.
  split; [|split].
  - split; [apply NameCompare_swo|]. apply swo_asym, NameCompare_swo.
  - split; [apply SizeCompare_swo|]. apply swo_asym, SizeCompare_swo.
  - split; [apply RepeatData_lt_swo|]. apply swo_asym, RepeatData_lt_swo.
Qed.

(** X2: on symbols whose names hold no nul, [NameCompare] and [SizeCompare]
    leave two symbols unordered exactly when they have the same name and the
    same size: both are total orders of the (name, size) pairs, the one by
    name first, the other by size first. *)
Theorem comparators_tell_name_and_size (a b : SymbolData) :
  nul_free (name a) -> nul_free (name b) ->
  (NameCompare a b = false /\ NameCompare b a = false
   <-> name a = name b /\ size a = size b) /\
  (SizeCompare a b = false /\ SizeCompare b a = false
   <-> name a = name b /\ size a = size b) /\
  (size a < size b -> SizeCompare a b = true) /\
  (StringCompare (name a) (name b) < 0 -> NameCompare a b = true).
Proof.
  intros Ha Hb.
  pose proof (StringCompare_antisym (name a) (name b)) as Hanti.
  pose proof (StringCompare_eq (name a) (name b) Ha Hb) as Heq.
  assert (Hrefl : name a = name b -> StringCompare (name a) (name b) = 0)
    by (intros ->; apply StringCompare_refl).
  repeat split.
  - destruct H as [H1 H2]. apply Heq. revert H1 H2. unfold NameCompare. cbv zeta.
    destruct_tests; intros; try discriminate; lia.
  - destruct H as [H1 H2]. revert H1 H2. unfold NameCompare. cbv zeta.
    destruct_tests; intros; try discriminate; lia.
  - destruct H as [Hn Hs]. specialize (Hrefl Hn). unfold NameCompare. cbv zeta.
    destruct_tests; try reflexivity; lia.
  - destruct H as [Hn Hs]. specialize (Hrefl Hn). unfold NameCompare. cbv zeta.
    destruct_tests; try reflexivity; lia.
  - destruct H as [H1 H2]. apply Heq. revert H1 H2. unfold SizeCompare.
    destruct_tests; intros; try discriminate; lia.
  - destruct H as [H1 H2]. revert H1 H2. unfold SizeCompare.
    destruct_tests; intros; try discriminate; lia.
  - destruct H as [Hn Hs]. specialize (Hrefl Hn). unfold SizeCompare.
    destruct_tests; try reflexivity; lia.
  - destruct H as [Hn Hs]. specialize (Hrefl Hn). unfold SizeCompare.
    destruct_tests; try reflexivity; lia.
  - intros Hlt. unfold SizeCompare. destruct_tests; try reflexivity; lia.
  - intros Hlt. unfold NameCompare. cbv zeta. destruct_tests; try reflexivity; lia.
Qed.

Lemma comparators_tell_name_and_size_witness :
  let a := mkSymbolData 8 1 16 (L "kPi") in
  let b := mkSymbolData 16 1 32 (L "kPi") in
  (NameCompare a b = false /\ NameCompare b a = false
   <-> name a = name b /\ size a = size b) /\
  (SizeCompare a b = false /\ SizeCompare b a = false
   <-> name a = name b /\ size a = size b) /\
  (size a < size b -> SizeCompare a b = true) /\
  (StringCompare (name a) (name b) < 0 -> NameCompare a b = true).
Proof.
  apply (comparators_tell_name_and_size (mkSymbolData 8 1 16 (L "kPi"))
           (mkSymbolData 16 1 32 (L "kPi")));
    repeat constructor; vm_compute; discriminate.
Defined.

Lemma wcscmp_until_nul (a b : list wchar_t) :
  wcscmp (c_str a) (c_str b) = wcscmp (c_str (until_nul a)) (c_str (until_nul b)).
Proof.
  unfold c_str. revert b.
  induction a as [|x a IH]; intros [|y b]; cbn [until_nul app wcscmp];
    try specialize (IH b);
    repeat match goal with
           | |- context [until_nul (?c :: _)] => cbn [until_nul]
           | |- context [if ?c =? 0 then [] else _] =>
               destruct (Z.eqb_spec c 0); [subst|]
           end;
    cbn [app wcscmp]; destruct_tests; try lia; try reflexivity; try assumption.
Qed.

(** X3: [StringCompare] reads a string up to its first nul only: it gives
    what it gives on the two strings cut there, and 0 exactly when the cut
    strings are the same. *)
Theorem StringCompare_reads_until_nul (lhs rhs : wstring) :
  StringCompare lhs rhs = StringCompare (until_nul lhs) (until_nul rhs) /\
  (StringCompare lhs rhs = 0 <-> until_nul lhs = until_nul rhs) /\
  StringCompare rhs lhs = - StringCompare lhs rhs.
Proof.
  assert (H : StringCompare lhs rhs = StringCompare (until_nul lhs) (until_nul rhs))
    by apply wcscmp_until_nul.
  split; [exact H|]. split; [|apply StringCompare_antisym].
  rewrite H. split.
  - apply StringCompare_eq; apply until_nul_nul_free.
  - intros ->. apply StringCompare_refl.
Qed.

(** ** The enumeration of the symbols *)

(** The symbols of the enumeration that the loop keeps, and what it keeps of
    one. *)
Definition is_kept (symbol : IDiaSymbol) : bool :=
  negb (FAILED (fst (get_locationType symbol)))
  && (out_value 0 (get_locationType symbol) =? LocIsStatic)
  && negb (FAILED (fst (get_type symbol)))
  && (fst (get_name symbol) =? S_OK).

Definition kept_data (symbol : IDiaSymbol) : SymbolData :=
  mkSymbolData
    (match snd (get_type symbol) with
     | Some (hr, length) => if hr =? S_OK then length else 0
     | None => 0
     end)
    (if fst (get_addressSection symbol) =? S_OK
     then snd (get_addressSection symbol) else 4294967294)
    (if fst (get_addressOffset symbol) =? S_OK
     then snd (get_addressOffset symbol) else 0)
    (until_nul (snd (get_name symbol))).

(** The statics whose type cannot be asked for. *)
Definition type_fails (symbol : IDiaSymbol) : bool :=
  negb (FAILED (fst (get_locationType symbol)))
  && (out_value 0 (get_locationType symbol) =? LocIsStatic)
  && FAILED (fst (get_type symbol)).

Lemma read_symbol_cases (symbol : IDiaSymbol) :
  type_symbol_missing symbol = false ->
  read_symbol symbol
  = (if type_fails symbol then [Message "Get_type failed."] else [],
     Returns (if is_kept symbol then [kept_data symbol] else [])).
Proof.
  unfold read_symbol, type_symbol_missing, type_fails, is_kept, kept_data,
    SymbolData_ctor.
  cbv zeta.
  destruct (FAILED (fst (get_locationType symbol))); [reflexivity|].
  cbn [negb andb].
  destruct (out_value 0 (get_locationType symbol) =? LocIsStatic); [|reflexivity].
  cbn [negb andb].
  destruct (FAILED (fst (get_type symbol))); [reflexivity|].
  cbn [negb andb].
  destruct (snd (get_type symbol)) as [[hr length]|]; [intros _|discriminate].
  unfold out_value. cbn [fst snd].
  destruct (fst (get_name symbol) =? S_OK); [|reflexivity].
  destruct (fst (get_addressSection symbol) =? S_OK); reflexivity.
Qed.

(** X4: the enumeration loop crashes exactly when some static's
    [get_type] does not fail and yet leaves no type symbol.  Otherwise it
    never stops early: it keeps, in the order of the enumeration, one record
    for every static whose type and name can be read, with size 0, section
    0xFFFFFFFE and offset 0 standing in for the lookups that do not return
    [S_OK] and the name cut at its first nul; it prints one line for every
    static whose [get_type] fails; every other symbol is passed over. *)
Theorem read_symbols_keeps_statics (enum_symbols : list IDiaSymbol) :
  (snd (read_symbols enum_symbols) = Crashes
   <-> existsb type_symbol_missing enum_symbols = true) /\
  (existsb type_symbol_missing enum_symbols = false ->
   read_symbols enum_symbols
   = (map (fun _ => Message "Get_type failed.") (filter type_fails enum_symbols),
      Returns (map kept_data (filter is_kept enum_symbols))) /\
   Forall (fun s => nul_free (name s)) (map kept_data (filter is_kept enum_symbols)) /\
   (length (filter type_fails enum_symbols) + length (filter is_kept enum_symbols)
    <= length enum_symbols)%nat).
Proof.
  split; [apply read_symbols_crashes|].
  intros Hok.
  assert (Heq : read_symbols enum_symbols
                = (map (fun _ => Message "Get_type failed.")
                       (filter type_fails enum_symbols),
                   Returns (map kept_data (filter is_kept enum_symbols)))).
  { induction enum_symbols as [|symbol rest IH]; cbn [read_symbols filter]; [reflexivity|].
    cbn [existsb] in Hok. apply orb_false_iff in Hok. destruct Hok as [H1 H2].
    rewrite (read_symbol_cases symbol H1), (IH H2).
    destruct (type_fails symbol), (is_kept symbol); reflexivity. }
  split; [exact Heq|]. split.
  - apply (read_symbols_nul_free enum_symbols). now rewrite Heq.
  - clear. induction enum_symbols as [|symbol rest IH]; cbn [filter length]; [lia|].
    assert (Hexcl : type_fails symbol = true -> is_kept symbol = false).
    { unfold type_fails, is_kept. intros H.
      apply andb_true_iff in H. destruct H as [H1 H2].
      rewrite H1, H2. reflexivity. }
    destruct (type_fails symbol); [rewrite Hexcl by reflexivity|];
      try destruct (is_kept symbol); cbn [length]; lia.
Qed.

Lemma read_symbols_keeps_statics_witness :
  let k := {| get_locationType := (0, 1); get_type := (0, Some (1, 200));
              get_addressSection := (1, 7); get_addressOffset := (0, 16);
              get_name := (0, L "k") |} in
  let t := {| get_locationType := (0, 1); get_type := (-1, None);
              get_addressSection := (0, 1); get_addressOffset := (0, 16);
              get_name := (0, L "t") |} in
  (snd (read_symbols [k; t; k]) = Crashes
   <-> existsb type_symbol_missing [k; t; k] = true) /\
  (existsb type_symbol_missing [k; t; k] = false ->
   read_symbols [k; t; k]
   = (map (fun _ => Message "Get_type failed.") (filter type_fails [k; t; k]),
      Returns (map kept_data (filter is_kept [k; t; k]))) /\
   Forall (fun s => nul_free (name s)) (map kept_data (filter is_kept [k; t; k])) /\
   (length (filter type_fails [k; t; k]) + length (filter is_kept [k; t; k])
    <= length [k; t; k])%nat).
Proof.
  exact (read_symbols_keeps_statics
           [ {| get_locationType := (0, 1); get_type := (0, Some (1, 200));
                get_addressSection := (1, 7); get_addressOffset := (0, 16);
                get_name := (0, L "k") |};
             {| get_locationType := (0, 1); get_type := (-1, None);
                get_addressSection := (0, 1); get_addressOffset := (0, 16);
                get_name := (0, L "t") |};
             {| get_locationType := (0, 1); get_type := (0, Some (1, 200));
                get_addressSection := (1, 7); get_addressOffset := (0, 16);
                get_name := (0, L "k") |} ]).
Defined.

(** ** The command line *)

(** The test of the loop over [argv]: the argument is the flag. *)
Definition is_flag (arg : wstring) : bool :=
  wcscmp (c_str arg) (c_str (L "--show_folded_constants")) =? 0.

Lemma last_cons_default {A : Type} (a d : A) (l : list A) :
  last (a :: l) d = last l a.
Proof.
  revert a d. induction l as [|b l IH]; intros a d; [reflexivity|].
  change (last (a :: b :: l) d) with (last (b :: l) d).
  now rewrite !IH.
Qed.

Lemma last_map_Some_None {A : Type} (l : list A) :
  last (map Some l) None = None <-> l = [].
Proof.
  split; [|now intros ->].
  induction l as [|x l _] using rev_ind; [reflexivity|].
  rewrite map_app. cbn [map]. rewrite last_last. discriminate.
Qed.

Lemma parse_args_spec (argv : list wstring) (show : bool) (filename : option wstring) :
  parse_args argv show filename
  = (show || existsb is_flag argv,
     last (map Some (filter (fun arg => negb (is_flag arg)) argv)) filename).
Proof.
  revert show filename.
  induction argv as [|arg rest IH]; intros show filename; cbn [parse_args existsb filter].
  - now rewrite orb_false_r.
  - fold (is_flag arg). destruct (is_flag arg); cbn [negb orb map]; rewrite IH.
    + now rewrite orb_true_r.
    + now rewrite last_cons_default.
Qed.

Lemma parse_args_no_file_name (argv : list wstring) :
  snd (parse_args argv false None) = None <-> forallb is_flag argv = true.
Proof.
  rewrite parse_args_spec. cbn [snd]. rewrite last_map_Some_None.
  induction argv as [|arg rest IH]; cbn [filter forallb]; [tauto|].
  destruct (is_flag arg); cbn [negb andb]; [exact IH|].
  split; discriminate.
Qed.

(** X6: the flag is taken wherever it stands among the arguments, the
    program's name included, and the file name is the last argument that is
    not the flag; there is none exactly when every argument is the flag. *)
Theorem parse_args_last_file_name (argv : list wstring) :
  fst (parse_args argv false None) = existsb is_flag argv /\
  snd (parse_args argv false None)
  = last (map Some (filter (fun arg => negb (is_flag arg)) argv)) None /\
  (snd (parse_args argv false None) = None <-> forallb is_flag argv = true) /\
  (forall front arg back,
      argv = front ++ arg :: back -> is_flag arg = false ->
      forallb is_flag back = true ->
      snd (parse_args argv false None) = Some arg).
Proof.
  split; [|split; [|split; [apply parse_args_no_file_name|]]];
    rewrite parse_args_spec; cbn [fst snd orb]; try reflexivity.
  - intros front arg back -> Harg Hback.
    rewrite filter_app, map_app. cbn [filter]. rewrite Harg. cbn [negb map].
    replace (filter (fun a => negb (is_flag a)) back) with (@nil wstring).
    + cbn [map]. now rewrite last_last.
    + symmetry. apply filter_none. rewrite forallb_forall in Hback.
      apply Forall_forall. intros a Ha. now rewrite (Hback a Ha).
Qed.

Lemma parse_args_last_file_name_witness :
  let argv := [L "ShowGlobals.exe"; L "--show_folded_constants"; L "a.pdb";
               L "b.pdb"; L "--show_folded_constants"] in
  fst (parse_args argv false None) = existsb is_flag argv /\
  snd (parse_args argv false None)
  = last (map Some (filter (fun arg => negb (is_flag arg)) argv)) None /\
  (snd (parse_args argv false None) = None <-> forallb is_flag argv = true) /\
  (forall front arg back,
      argv = front ++ arg :: back -> is_flag arg = false ->
      forallb is_flag back = true ->
      snd (parse_args argv false None) = Some arg).
Proof.
  exact (parse_args_last_file_name
           [L "ShowGlobals.exe"; L "--show_folded_constants"; L "a.pdb";
            L "b.pdb"; L "--show_folded_constants"]).
Defined.

(** ** [Initialize] and the exit code *)

(** X7: [Initialize] gives the global scope, and prints nothing, exactly
    when [CoCreateInstance], [loadDataFromPdb] and [openSession] do not fail
    and [get_globalScope] returns [S_OK] itself; a success code other than
    [S_OK] is taken from the first three and refused from the last.
    Otherwise it prints one diagnostic, with the [HRESULT] of the first call
    that went wrong, and gives nothing. *)
Theorem Initialize_outcome (sys : Platform) (filename : wstring) :
  let ok := 0 <= CoCreateInstance sys /\ 0 <= loadDataFromPdb sys filename /\
            0 <= openSession sys /\ get_globalScope sys = S_OK in
  (ok /\ Initialize sys filename = ([], Some (globalScope sys filename))) \/
  (~ ok /\
   exists text hr,
     Initialize sys filename = ([Failure text hr], None) /\
     ((hr < 0 /\ hr = CoCreateInstance sys) \/
      (0 <= CoCreateInstance sys /\ hr < 0 /\ hr = loadDataFromPdb sys filename) \/
      (0 <= CoCreateInstance sys /\ 0 <= loadDataFromPdb sys filename /\
       hr < 0 /\ hr = openSession sys) \/
      (0 <= CoCreateInstance sys /\ 0 <= loadDataFromPdb sys filename /\
       0 <= openSession sys /\ hr <> S_OK /\ hr = get_globalScope sys))).
Proof.
  cbv zeta. unfold Initialize, FAILED. cbv zeta.
  destruct (Z.ltb_spec (CoCreateInstance sys) 0) as [H1|H1].
  { right. split; [lia|]. eexists _, _. split; [reflexivity|]. left. lia. }
  destruct (Z.ltb_spec (loadDataFromPdb sys filename) 0) as [H2|H2].
  { right. split; [lia|]. eexists _, _. split; [reflexivity|]. right; left. lia. }
  destruct (Z.ltb_spec (openSession sys) 0) as [H3|H3].
  { right. split; [lia|]. eexists _, _. split; [reflexivity|]. right; right; left. lia. }
  destruct (Z.eqb_spec (get_globalScope sys) S_OK) as [H4|H4]; cbn [negb].
  - left. auto.
  - right. split; [tauto|]. eexists _, _. split; [reflexivity|].
    right; right; right. auto.
Qed.

(** X8: [wmain] prints the usage message exactly when every argument, the
    program's name included, is the flag (or there is no argument at
    all). *)
Theorem wmain_usage_iff {sorter : StdSort} (sys : Platform) (argv : list wstring) :
  In usage (fst (wmain sys argv)) <-> forallb is_flag argv = true.
Proof.
  rewrite <- parse_args_no_file_name. split.
  - unfold wmain. destruct (parse_args argv false None) as [show [filename|]];
      [|reflexivity].
    intros Hin. exfalso. revert Hin.
    destruct (FAILED (CoInitialize sys)); [cbn; intros [H|[]]; discriminate|].
    destruct (Initialize_cases sys filename) as [(text & hr & H)|(global & H)];
      rewrite H.
    + cbn. intros [H'|[]]; discriminate.
    + rewrite wmain_dump_lines. apply DumpInterestingGlobals_no_usage.
  - intros H. rewrite (wmain_usage sys argv H). now left.
Qed.

(** X9: [wmain] ends with exit code -1, with exit code 0, or in a crash.
    The code is -1 exactly when no file name is given or [Initialize] fails;
    the crash happens exactly when the enumeration is reached and holds a
    static whose [get_type] leaves no type symbol without failing.  A
    failure of [CoInitialize] and a failure of [findChildren] in
    [DumpInterestingGlobals] print their diagnostic and leave the exit
    code 0. *)
Theorem wmain_exit_code {sorter : StdSort} (sys : Platform) (argv : list wstring) :
  (snd (wmain sys argv) = Returns (-1) \/ snd (wmain sys argv) = Returns 0 \/
   snd (wmain sys argv) = Crashes) /\
  (snd (wmain sys argv) = Returns (-1) <->
   snd (parse_args argv false None) = None \/
   exists filename,
     snd (parse_args argv false None) = Some filename /\
     FAILED (CoInitialize sys) = false /\
     snd (Initialize sys filename) = None) /\
  (snd (wmain sys argv) = Crashes <->
   exists filename global,
     snd (parse_args argv false None) = Some filename /\
     FAILED (CoInitialize sys) = false /\
     Initialize sys filename = ([], Some global) /\
     FAILED (fst global) = false /\
     existsb type_symbol_missing (snd global) = true) /\
  (forall filename,
      snd (parse_args argv false None) = Some filename ->
      FAILED (CoInitialize sys) = true ->
      wmain sys argv = ([Failure "CoInitialize failed" (CoInitialize sys)], Returns 0)) /\
  (forall filename global,
      snd (parse_args argv false None) = Some filename ->
      FAILED (CoInitialize sys) = false ->
      Initialize sys filename = ([], Some global) ->
      FAILED (fst global) = true ->
      wmain sys argv
      = ([Header; Message "ERROR - DumpInterestingGlobals() returned no symbols."],
         Returns 0)).
Proof.
  assert (Hdump : forall global filename show,
             snd (DumpInterestingGlobals global filename show) = Crashes
             <-> FAILED (fst global) = false /\
                 existsb type_symbol_missing (snd global) = true).
  { intros global filename show. unfold DumpInterestingGlobals. cbv zeta.
    rewrite <- read_symbols_crashes.
    destruct (FAILED (fst global)); cbn [snd].
    - split; [discriminate | intros [H _]; discriminate].
    - destruct (read_symbols (snd global)) as [out [symbols|]]; cbn [snd].
      + split; [discriminate | intros [_ H]; discriminate].
      + tauto. }
  unfold wmain. destruct (parse_args argv false None) as [show [filename|]]; cbn [snd].
  - destruct (FAILED (CoInitialize sys)) eqn:Hco.
    + cbn [snd]. split; [right; now left|]. split; [|split; [|split]].
      * split; [discriminate|].
        intros [H|(f & _ & H & _)]; discriminate.
      * split; [discriminate|].
        intros (f & g & _ & H & _). discriminate.
      * reflexivity.
      * intros f global _ H. discriminate.
    + destruct (Initialize_cases sys filename) as [(text & hr & H)|(global & H)];
        rewrite H; cbn [snd].
      * split; [now left|]. split; [|split; [|split]].
        -- split; [|reflexivity]. intros _. right. exists filename.
           rewrite H. auto.
        -- split; [discriminate|].
           intros (f & g & Hf & _ & H' & _). injection Hf as <-.
           rewrite H in H'. discriminate.
        -- intros f _ Hco'. discriminate.
        -- intros f global Hf _ H'. injection Hf as <-. rewrite H in H'. discriminate.
      * specialize (Hdump global filename show).
        destruct (DumpInterestingGlobals global filename show) as [out [b|]] eqn:Hd;
          cbn [snd] in *.
        -- split; [right; now left|]. split; [|split; [|split]].
           ++ split; [discriminate|].
              intros [H'|(f & Hf & _ & H')]; [discriminate|].
              injection Hf as <-. rewrite H in H'. discriminate.
           ++ split; [discriminate|].
              intros (f & g & Hf & _ & H' & Hg1 & Hg2). injection Hf as <-.
              rewrite H in H'. injection H' as <-.
              destruct Hdump as [_ Hdump]. discriminate (Hdump (conj Hg1 Hg2)).
           ++ intros f _ Hco'. discriminate.
           ++ intros f global' Hf _ H' Hfail. injection Hf as <-.
              rewrite H in H'. injection H' as <-.
              revert Hd. unfold DumpInterestingGlobals. cbv zeta.
              rewrite Hfail. intros Hd. injection Hd as <- <-. reflexivity.
        -- split; [right; now right|]. split; [|split; [|split]].
           ++ split; [discriminate|].
              intros [H'|(f & Hf & _ & H')]; [discriminate|].
              injection Hf as <-. rewrite H in H'. discriminate.
           ++ split; [|reflexivity]. intros _.
              destruct Hdump as [Hdump _]. destruct (Hdump eq_refl) as [Hg1 Hg2].
              exists filename, global. auto.
           ++ intros f _ Hco'. discriminate.
           ++ intros f global' Hf _ H' Hfail. injection Hf as <-.
              rewrite H in H'. injection H' as <-.
              destruct Hdump as [Hdump _]. destruct (Hdump eq_refl) as [Hg1 _].
              congruence.
  - split; [now left|]. split; [|split; [|split]].
    + split; [now left | reflexivity].
    + split; [discriminate|]. intros (f & g & H & _). discriminate.
    + discriminate.
    + discriminate.
Qed.

Lemma wmain_exit_code_witness :
  let t := {| get_locationType := (0, 1); get_type := (1, None);
              get_addressSection := (0, 1); get_addressOffset := (0, 16);
              get_name := (0, L "t") |} in
  let sys := {| CoInitialize := 0; CoCreateInstance := 0;
                loadDataFromPdb := fun _ => 0; openSession := 0;
                get_globalScope := 0; globalScope := fun _ => (0, [t]) |} in
  let argv := [L "ShowGlobals.exe"; L "chrome.dll.pdb"] in
  (snd (wmain (sorter := insertion_sorter) sys argv) = Returns (-1) \/
   snd (wmain (sorter := insertion_sorter) sys argv) = Returns 0 \/
   snd (wmain (sorter := insertion_sorter) sys argv) = Crashes) /\
  (snd (wmain (sorter := insertion_sorter) sys argv) = Returns (-1) <->
   snd (parse_args argv false None) = None \/
   exists filename,
     snd (parse_args argv false None) = Some filename /\
     FAILED (CoInitialize sys) = false /\
     snd (Initialize sys filename) = None) /\
  (snd (wmain (sorter := insertion_sorter) sys argv) = Crashes <->
   exists filename global,
     snd (parse_args argv false None) = Some filename /\
     FAILED (CoInitialize sys) = false /\
     Initialize sys filename = ([], Some global) /\
     FAILED (fst global) = false /\
     existsb type_symbol_missing (snd global) = true) /\
  (forall filename,
      snd (parse_args argv false None) = Some filename ->
      FAILED (CoInitialize sys) = true ->
      wmain (sorter := insertion_sorter) sys argv
      = ([Failure "CoInitialize failed" (CoInitialize sys)], Returns 0)) /\
  (forall filename global,
      snd (parse_args argv false None) = Some filename ->
      FAILED (CoInitialize sys) = false ->
      Initialize sys filename = ([], Some global) ->
      FAILED (fst global) = true ->
      wmain (sorter := insertion_sorter) sys argv
      = ([Header; Message "ERROR - DumpInterestingGlobals() returned no symbols."],
         Returns 0)).
Proof.
  exact (wmain_exit_code (sorter := insertion_sorter)
           {| CoInitialize := 0; CoCreateInstance := 0;
              loadDataFromPdb := fun _ => 0; openSession := 0;
              get_globalScope := 0;
              globalScope := fun _ =>
                (0, [ {| get_locationType := (0, 1); get_type := (1, None);
                         get_addressSection := (0, 1); get_addressOffset := (0, 16);
                         get_name := (0, L "t") |} ]) |}
           [L "ShowGlobals.exe"; L "chrome.dll.pdb"]).
Defined.

(** ** The reports and the symbol table *)

(** X10: the [break] of the size report loses nothing: [large_symbols] lists
    every symbol of the input whose size is at least [kBigSizeThreshold], as
    often as it occurs, and nothing else. *)
Theorem large_symbols_complete {sorter : StdSort} (symbols : list SymbolData) :
  Permutation (large_symbols symbols)
              (filter (fun s => kBigSizeThreshold <=? size s) symbols) /\
  (forall s, In s (large_symbols symbols)
             <-> In s symbols /\ kBigSizeThreshold <= size s).
Proof.
  assert (Hperm : Permutation (large_symbols symbols)
                    (filter (fun s => kBigSizeThreshold <=? size s) symbols)).
  { change (large_symbols symbols) with (large_rows (by_size symbols)).
    rewrite large_rows_filter by apply by_size_sorted.
    rewrite (filter_ext _ (fun s => kBigSizeThreshold <=? size s)).
    - apply Permutation_filter, Permutation_sym, by_size_perm.
    - intros s. destruct (Z.ltb_spec (size s) kBigSizeThreshold),
        (Z.leb_spec kBigSizeThreshold (size s)); try reflexivity; lia. }
  split; [exact Hperm|].
  intros s. split.
  - intros H. apply (Permutation_in _ Hperm), filter_In in H.
    destruct H as [H1 H2]. split; [assumption|]. now apply Z.leb_le.
  - intros [H1 H2]. apply (Permutation_in _ (Permutation_sym Hperm)), filter_In.
    split; [assumption|]. now apply Z.leb_le.
Qed.

(** In a range sorted by [NameCompare], a group holds all the symbols of the
    range that have the size and the name of one of its own. *)
Lemma groups_filter (symbols : list SymbolData) :
  sorted_by NameCompare symbols ->
  forall g p, In g (groups symbols) -> In p g ->
              g = filter (same_group p) symbols.
Proof.
  funelim (groups symbols); intros Hsorted g q Hg Hq; [destruct Hg|].
  destruct (sorted_scan_filter p tl Hsorted) as [Hrun Hrest].
  pose proof (scan_run_same_group p (p :: tl) 0) as Hsame.
  fold (scan_run p (p :: tl)) in Hsame. rewrite Forall_forall in Hsame.
  destruct Hg as [<-|Hg].
  - rewrite Hrun at 1. apply filter_ext. intros s.
    specialize (Hsame q Hq).
    destruct (same_group p s) eqn:E1, (same_group q s) eqn:E2; try reflexivity.
    + rewrite same_group_sym in Hsame.
      rewrite (same_group_trans q p s Hsame E1) in E2. discriminate.
    + rewrite (same_group_trans p q s Hsame E2) in E1. discriminate.
  - assert (Hsr : sorted_by NameCompare (scan_rest p (p :: tl))).
    { pose proof (scan_run_rest p (p :: tl)) as Hsplit. rewrite <- Hsplit in Hsorted.
      now apply sorted_by_app_inv in Hsorted. }
    rewrite (H Hsr g q Hg Hq).
    rewrite <- (scan_run_rest p (p :: tl)) at 2. rewrite filter_app.
    rewrite (filter_none (same_group q) (scan_run p (p :: tl))); [reflexivity|].
    apply Forall_forall. intros s Hs. specialize (Hsame s Hs).
    assert (Hq' : In q (scan_rest p (p :: tl))).
    { rewrite <- (groups_concat (scan_rest p (p :: tl))). apply in_concat. eauto. }
    rewrite Hrest in Hq'. apply filter_In in Hq'. destruct Hq' as [_ Hpq].
    destruct (same_group q s) eqn:E; [|reflexivity].
    rewrite same_group_sym in E.
    rewrite (same_group_trans p s q Hsame E) in Hpq. discriminate.
Qed.

(** The report of a group [p :: tl] of symbols of the size and name of [p],
    written out. *)
Lemma report_group_eq (show : bool) (p : SymbolData) (tl : list SymbolData) :
  Z.of_nat (length (p :: tl)) < 2 ^ 31 ->
  Forall (fun s => same_group p s = true) (p :: tl) ->
  report_group show (p :: tl)
  = if (1 <=? Z.of_nat (length tl))
       && (kWastageThreshold
           <? to_ULONGLONG (excess_count show (Z.of_nat (length tl))
                                         (folded p (p :: tl) - 1) * size p))
    then [mkRepeatData (Z.of_nat (length tl)) (folded p (p :: tl) - 1)
            (to_ULONGLONG (excess_count show (Z.of_nat (length tl))
                                        (folded p (p :: tl) - 1) * size p))
            (name p)]
    else [].
Proof.
  intros Hlen Hg.
  unfold report_group, report_repeat. cbv zeta.
  assert (Hfold : scan_folding p (p :: tl) = folded p (p :: tl)).
  { unfold scan_folding. rewrite scan_folding_count by lia.
    rewrite scan_whole by assumption. reflexivity. }
  rewrite Hfold.
  pose proof (folded_bounds p (p :: tl)) as Hb.
  cbn [length] in *.
  assert (Hn : to_size_t (Z.of_nat (S (length tl))) = Z.of_nat (S (length tl))).
  { unfold to_size_t. apply Z.mod_small. lia. }
  assert (Hrc : to_size_t (Z.of_nat (S (length tl)) - 1) = Z.of_nat (length tl)).
  { unfold to_size_t. rewrite Z.mod_small by lia. lia. }
  assert (Hfc : to_int (folded p (p :: tl) - 1) = folded p (p :: tl) - 1).
  { unfold to_int. rewrite Z.mod_small; lia. }
  rewrite Hn, Hrc, Hfc.
  destruct (Z.ltb_spec 1 (Z.of_nat (S (length tl)))),
    (Z.leb_spec 1 (Z.of_nat (length tl))); try lia; reflexivity.
Qed.

Section Rows.

Context {sorter : StdSort}.

(** What the groups report is printed. *)
Lemma report_group_printed (show : bool) (symbols g : list SymbolData) (r : RepeatData) :
  In g (symbol_groups symbols) -> In r (report_group show g) ->
  In r (duplicate_groups show symbols).
Proof.
  intros Hg Hr. apply (Permutation_in _ (duplicate_groups_perm show symbols)).
  rewrite find_repeats_groups. apply in_flat_map. eauto.
Qed.

(** The group of a symbol of the input: all the symbols of its size and
    name. *)
Lemma symbol_group_of (symbols : list SymbolData) (p : SymbolData) :
  In p symbols ->
  exists q tl, In (q :: tl) (symbol_groups symbols) /\ In p (q :: tl) /\
               Forall (fun s => same_group q s = true) (q :: tl) /\
               q :: tl = filter (same_group p) (std_sort NameCompare symbols).
Proof.
  intros Hp.
  apply (Permutation_in _ (symbol_groups_perm symbols)), in_concat in Hp.
  destruct Hp as (g & Hg & Hp).
  destruct (groups_same_group _ _ Hg) as (q & tl & -> & Hsame).
  exists q, tl. repeat split; try assumption.
  apply groups_filter; try assumption.
  apply std_sort_sorted, NameCompare_swo.
Qed.

Lemma filter_sorted_length (f : SymbolData -> bool) (symbols : list SymbolData) :
  length (filter f (std_sort NameCompare symbols)) = length (filter f symbols).
Proof.
  apply Permutation_length, Permutation_filter, Permutation_sym.
  apply std_sort_perm, NameCompare_swo.
Qed.

End Rows.

Lemma filter_filter_andb {A : Type} (f g : A -> bool) (l : list A) :
  filter f (filter g l) = filter (fun x => g x && f x) l.
Proof.
  induction l as [|x l IH]; cbn [filter]; [reflexivity|].
  destruct (g x); cbn [filter andb]; [|exact IH].
  destruct (f x); now rewrite IH.
Qed.

(** X11: what a row of [duplicate_groups] says about the symbol table.  With
    [p] the symbol its group starts with, the row carries the name of [p];
    [repeat_count] is the number of symbols of the table that have the size
    and name of [p], less one; [folding_count] is the number of those that
    also have the offset of [p], when that is not zero, less one; and
    [bytes_wasted] is [excess_count] times the size of [p] in 64 bits. *)
Theorem row_counts_symbols {sorter : StdSort}
    (show_folded_constants : bool) (symbols : list SymbolData) (r : RepeatData) :
  Z.of_nat (length symbols) < 2 ^ 31 ->
  In r (duplicate_groups show_folded_constants symbols) ->
  exists p,
    In p symbols /\ rname r = name p /\
    repeat_count r = Z.of_nat (length (filter (same_group p) symbols)) - 1 /\
    folding_count r
    = Z.of_nat (length (filter (fun s => same_group p s && offset_match p s) symbols)) - 1 /\
    bytes_wasted r
    = to_ULONGLONG (excess_count show_folded_constants (repeat_count r) (folding_count r)
                    * size p).
Proof.
  intros Hlen Hr.
  destruct (duplicate_groups_origin _ _ _ Hr) as (p & tl & Hg & Hsame & Hrep & Hle).
  destruct (report_group_inv show_folded_constants p tl r) as (Hrc & Hfc & Hbw & Hname);
    [lia | assumption | assumption |].
  assert (Hfilter : p :: tl = filter (same_group p) (std_sort NameCompare symbols)).
  { apply groups_filter; [apply std_sort_sorted, NameCompare_swo | exact Hg | now left]. }
  exists p. split; [|split; [assumption|split; [|split; [|assumption]]]].
  - apply (Permutation_in _ (Permutation_sym (symbol_groups_perm symbols))).
    apply in_concat. exists (p :: tl). split; [assumption | now left].
  - rewrite Hrc, <- filter_sorted_length, <- Hfilter. cbn [length]. lia.
  - rewrite Hfc. unfold folded. rewrite Hfilter at 1.
    now rewrite filter_filter_andb, filter_sorted_length.
Qed.

Lemma row_counts_symbols_witness :
  let symbols := [mkSymbolData 200 1 16 (L "k"); mkSymbolData 200 2 16 (L "k");
                  mkSymbolData 200 1 32 (L "k"); mkSymbolData 8 1 16 (L "k")] in
  let r := mkRepeatData 2 1 200 (L "k") in
  exists p,
    In p symbols /\ rname r = name p /\
    repeat_count r = Z.of_nat (length (filter (same_group p) symbols)) - 1 /\
    folding_count r
    = Z.of_nat (length (filter (fun s => same_group p s && offset_match p s) symbols)) - 1 /\
    bytes_wasted r
    = to_ULONGLONG (excess_count false (repeat_count r) (folding_count r) * size p).
Proof.
  apply (row_counts_symbols (sorter := insertion_sorter) false
           [mkSymbolData 200 1 16 (L "k"); mkSymbolData 200 2 16 (L "k");
            mkSymbolData 200 1 32 (L "k"); mkSymbolData 8 1 16 (L "k")]
           (mkRepeatData 2 1 200 (L "k"))).
  - vm_compute. reflexivity.
  - vm_compute. left. reflexivity.
Defined.

(** X12: with folded constants shown, every symbol that has duplicates
    wasting more than the threshold is listed: if the table holds [n] >= 2
    symbols of the size and name of [p] and [(n - 1) * size] exceeds 100 in
    64 bits, [duplicate_groups] has a row with that name, [n - 1] repeats
    and that many bytes. *)
Theorem duplicated_symbol_listed {sorter : StdSort}
    (symbols : list SymbolData) (p : SymbolData) :
  Z.of_nat (length symbols) < 2 ^ 31 ->
  In p symbols ->
  1 <= Z.of_nat (length (filter (same_group p) symbols)) - 1 ->
  kWastageThreshold
  < to_ULONGLONG ((Z.of_nat (length (filter (same_group p) symbols)) - 1) * size p) ->
  exists r,
    In r (duplicate_groups true symbols) /\
    StringCompare (rname r) (name p) = 0 /\
    repeat_count r = Z.of_nat (length (filter (same_group p) symbols)) - 1 /\
    bytes_wasted r
    = to_ULONGLONG ((Z.of_nat (length (filter (same_group p) symbols)) - 1) * size p).
Proof.
  intros Hlen Hp Hn Hw.
  destruct (symbol_group_of symbols p Hp) as (q & tl & Hg & Hpg & Hsame & Hfilter).
  assert (Hcount : Z.of_nat (length (filter (same_group p) symbols)) - 1
                   = Z.of_nat (length tl)).
  { rewrite <- filter_sorted_length, <- Hfilter. cbn [length]. lia. }
  assert (Hqp : same_group q p = true)
    by (rewrite Forall_forall in Hsame; now apply Hsame).
  unfold same_group in Hqp. apply andb_true_iff in Hqp. destruct Hqp as [Hsz Hnm].
  apply Z.eqb_eq in Hsz, Hnm.
  rewrite Hcount in *.
  assert (Hbound : Z.of_nat (length (q :: tl)) < 2 ^ 31).
  { pose proof (filter_length_le (same_group p) symbols). cbn [length]. lia. }
  pose proof (report_group_eq true q tl Hbound Hsame) as Heq.
  unfold excess_count in Heq. rewrite Hsz in Heq.
  destruct (Z.leb_spec 1 (Z.of_nat (length tl))); [|lia].
  destruct (Z.ltb_spec kWastageThreshold
              (to_ULONGLONG (Z.of_nat (length tl) * size p))); [|lia].
  cbn [andb] in Heq.
  eexists. split; [|split; [|split]].
  - apply (report_group_printed true symbols (q :: tl)); [assumption|].
    rewrite Heq. now left.
  - exact Hnm.
  - reflexivity.
  - reflexivity.
Qed.

Lemma duplicated_symbol_listed_witness :
  let symbols := [mkSymbolData 200 1 16 (L "k"); mkSymbolData 200 2 16 (L "k");
                  mkSymbolData 8 1 16 (L "k")] in
  let p := mkSymbolData 200 2 16 (L "k") in
  exists r,
    In r (duplicate_groups (sorter := insertion_sorter) true symbols) /\
    StringCompare (rname r) (name p) = 0 /\
    repeat_count r = Z.of_nat (length (filter (same_group p) symbols)) - 1 /\
    bytes_wasted r
    = to_ULONGLONG ((Z.of_nat (length (filter (same_group p) symbols)) - 1) * size p).
Proof.
  apply (duplicated_symbol_listed (sorter := insertion_sorter)
           [mkSymbolData 200 1 16 (L "k"); mkSymbolData 200 2 16 (L "k");
            mkSymbolData 8 1 16 (L "k")]
           (mkSymbolData 200 2 16 (L "k"))).
  - vm_compute. reflexivity.
  - right. left. reflexivity.
  - vm_compute. discriminate.
  - vm_compute. reflexivity.
Defined.

(** X13: when no symbol has offset zero and no product of a size by the
    number of symbols leaves 64 bits, hiding folded constants only takes
    away: every row printed with folded constants hidden is also printed
    with them shown, with the same name, repeat count and folding count and
    at least as many wasted bytes. *)
Theorem hiding_folded_only_lowers {sorter : StdSort}
    (symbols : list SymbolData) (r : RepeatData) :
  Z.of_nat (length symbols) < 2 ^ 31 ->
  Forall (fun s => offset s <> 0 /\ 0 <= size s /\
                   size s * Z.of_nat (length symbols) < 2 ^ 64) symbols ->
  In r (duplicate_groups false symbols) ->
  exists r',
    In r' (duplicate_groups true symbols) /\
    rname r' = rname r /\ repeat_count r' = repeat_count r /\
    folding_count r' = folding_count r /\
    bytes_wasted r <= bytes_wasted r'.
Proof.
  intros Hlen Hall Hr.
  destruct (duplicate_groups_origin _ _ _ Hr) as (p & tl & Hg & Hsame & Hrep & Hle).
  assert (Hp : In p symbols).
  { apply (Permutation_in _ (Permutation_sym (symbol_groups_perm symbols))).
    apply in_concat. exists (p :: tl). split; [assumption | now left]. }
  rewrite Forall_forall in Hall. destruct (Hall p Hp) as (Hoff & Hsize & Hprod).
  assert (Hbound : Z.of_nat (length (p :: tl)) < 2 ^ 31) by lia.
  rewrite (report_group_eq false p tl Hbound Hsame) in Hrep.
  pose proof (report_group_eq true p tl Hbound Hsame) as Htrue.
  rewrite folded_head in * by assumption.
  pose proof (folded_bounds p tl) as Hb. cbn [length] in Hle.
  replace (1 + folded p tl - 1) with (folded p tl) in * by lia.
  assert (Hfalse_val :
            to_ULONGLONG (excess_count false (Z.of_nat (length tl)) (folded p tl) * size p)
            = (Z.of_nat (length tl) - folded p tl) * size p).
  { unfold excess_count, to_size_t, to_ULONGLONG.
    rewrite (Z.mod_small (folded p tl)) by lia.
    rewrite (Z.mod_small (_ - _)) by lia.
    apply Z.mod_small. split; [apply Z.mul_nonneg_nonneg; lia|].
    apply Z.le_lt_trans with (Z.of_nat (length symbols) * size p); [|lia].
    apply Z.mul_le_mono_nonneg_r; lia. }
  assert (Htrue_val :
            to_ULONGLONG (excess_count true (Z.of_nat (length tl)) (folded p tl) * size p)
            = Z.of_nat (length tl) * size p).
  { unfold excess_count, to_ULONGLONG.
    apply Z.mod_small. split; [apply Z.mul_nonneg_nonneg; lia|].
    apply Z.le_lt_trans with (Z.of_nat (length symbols) * size p); [|lia].
    apply Z.mul_le_mono_nonneg_r; lia. }
  assert (Hmono : (Z.of_nat (length tl) - folded p tl) * size p
                  <= Z.of_nat (length tl) * size p)
    by (apply Z.mul_le_mono_nonneg_r; lia).
  rewrite Hfalse_val in Hrep. rewrite Htrue_val in Htrue.
  destruct (Z.leb_spec 1 (Z.of_nat (length tl))); [|destruct Hrep].
  destruct (Z.ltb_spec kWastageThreshold ((Z.of_nat (length tl) - folded p tl) * size p));
    [|destruct Hrep].
  destruct Hrep as [<-|[]].
  destruct (Z.ltb_spec kWastageThreshold (Z.of_nat (length tl) * size p)); [|lia].
  cbn [andb] in Htrue.
  eexists. split.
  - apply (report_group_printed true symbols (p :: tl)); [assumption|].
    rewrite Htrue. now left.
  - cbn [rname repeat_count folding_count bytes_wasted]. auto.
Qed.

Lemma hiding_folded_only_lowers_witness :
  exists r',
    In r' (duplicate_groups (sorter := insertion_sorter) true
             [mkSymbolData 200 1 16 (L "k"); mkSymbolData 200 2 16 (L "k");
              mkSymbolData 200 1 32 (L "k")]) /\
    rname r' = L "k" /\ repeat_count r' = 2 /\ folding_count r' = 1 /\
    200 <= bytes_wasted r'.
Proof.
  apply (hiding_folded_only_lowers (sorter := insertion_sorter)
           [mkSymbolData 200 1 16 (L "k"); mkSymbolData 200 2 16 (L "k");
            mkSymbolData 200 1 32 (L "k")]
           (mkRepeatData 2 1 200 (L "k"))).
  - vm_compute. reflexivity.
  - repeat constructor; vm_compute; discriminate || reflexivity.
  - vm_compute. left. reflexivity.
Defined.

(** ** The scan on any range *)

Lemma groups_head (p : SymbolData) (tl : list SymbolData) :
  exists run, groups (p :: tl) = (p :: run) :: groups (scan_rest p (p :: tl)).
Proof.
  simp groups. destruct (scan_run_head p tl) as [run ->]. now exists run.
Qed.

(** X14: whatever the order of the range, sorted or not, the scan cuts it
    into runs that are as long as can be: the runs put end to end are the
    range, none is empty, all symbols of a run have the size and name of its
    first, and the first symbol of the next run has not. *)
Theorem scan_cuts_maximal_runs (symbols : list SymbolData) :
  concat (groups symbols) = symbols /\
  Forall (fun g => exists p tl, g = p :: tl /\
                                Forall (fun s => same_group p s = true) tl)
         (groups symbols) /\
  (forall i p tl q tl',
      nth_error (groups symbols) i = Some (p :: tl) ->
      nth_error (groups symbols) (S i) = Some (q :: tl') ->
      same_group p q = false).
Proof.
  split; [apply groups_concat|]. split.
  - apply Forall_forall. intros g Hg.
    destruct (groups_same_group _ _ Hg) as (p & tl & -> & Hsame).
    exists p, tl. split; [reflexivity|]. now inversion Hsame.
  - funelim (groups symbols); intros i p0 tl0 q tl' Hi Hsi; [destruct i; discriminate|].
    destruct i as [|i].
    + cbn [nth_error] in Hi, Hsi.
      destruct (scan_run_head p tl) as [run Hrun]. rewrite Hrun in Hi.
      injection Hi as <- <-.
      pose proof (scan_rest_stops p (p :: tl) 0) as Hstop.
      fold (scan_rest p (p :: tl)) in Hstop.
      destruct (scan_rest p (p :: tl)) as [|s rest]; [simp groups in Hsi; discriminate|].
      destruct (groups_head s rest) as [run' Hg]. rewrite Hg in Hsi.
      cbn in Hsi. injection Hsi as <- <-. exact Hstop.
    + cbn [nth_error] in Hi, Hsi. eapply H; eassumption.
Qed.

Lemma flat_map_report_length (show : bool) (G : list (list SymbolData)) :
  (length (flat_map (report_group show) G) <= length G)%nat /\
  (2 * length (flat_map (report_group show) G) <= length (concat G))%nat.
Proof.
  induction G as [|g G [IH1 IH2]]; cbn [flat_map concat length]; [lia|].
  rewrite !length_app.
  assert (Hg : (length (report_group show g) <= 1)%nat /\
               (2 * length (report_group show g) <= length g)%nat).
  { destruct (report_group show g) as [|r [|r' l]] eqn:E.
    - cbn. lia.
    - assert (Hin : In r (report_group show g)) by (rewrite E; now left).
      apply report_group_length in Hin. cbn [length]. lia.
    - exfalso. destruct g as [|p tl]; [discriminate|].
      unfold report_group, report_repeat in E. cbv zeta in E.
      destruct (1 <? _); [|discriminate].
      destruct (kWastageThreshold <? _); discriminate. }
  lia.
Qed.

(** X15: a group gives one row at most, and only a group of two symbols or
    more gives one: [duplicate_groups] has no more rows than there are
    groups, and at most half as many as there are symbols. *)
Theorem duplicate_groups_row_count {sorter : StdSort}
    (show_folded_constants : bool) (symbols : list SymbolData) :
  (length (duplicate_groups show_folded_constants symbols)
   <= length (symbol_groups symbols))%nat /\
  (2 * length (duplicate_groups show_folded_constants symbols) <= length symbols)%nat.
Proof.
  rewrite <- (Permutation_length (duplicate_groups_perm show_folded_constants symbols)).
  rewrite find_repeats_groups.
  destruct (flat_map_report_length show_folded_constants (symbol_groups symbols))
    as [H1 H2].
  split; [exact H1|].
  rewrite (Permutation_length (symbol_groups_perm symbols)). exact H2.
Qed.
